(** * node-resteemo: request construction and response validation

    A shallow embedding of [index.js] (the RESTeemo API wrapper) and the
    properties of its platform normaliser, path builder, response
    validator, request dispatcher and public facade. *)

From Stdlib Require Import List String Ascii Bool ZArith NArith Lia.
From Stdlib Require Import DecimalString.
Import ListNotations.

Set Warnings "-register-all".

Local Open Scope string_scope.

(** ** JavaScript values handed to the facade

    The arguments of the public operations are primitives.  [VNumber n] is
    the Number value of the integer [n], the double nearest to [n]; NaN and
    the numbers with a fractional part are not among the values. *)

Inductive value : Type :=
| VUndefined
| VNull
| VBool (b : bool)
| VNumber (n : Z)
| VString (s : string).

(** ToBoolean; the double nearest to an integer is zero for 0 only. *)
Definition truthy (v : value) : bool :=
  match v with
  | VUndefined | VNull => false
  | VBool b => b
  | VNumber n => negb (n =? 0)%Z
  | VString s => negb (s =? EmptyString)
  end.

(** The double nearest to the integer [n], ties to the even significand;
    up to [2^53] every integer is a double, and [2^1024] and [-2^1024] stand
    for the infinities. *)
Definition Number_of_integer (n : Z) : Z :=
  let m := Z.abs n in
  let x :=
    if (m <=? 2 ^ 53)%Z then m
    else
      let u := (2 ^ (Z.log2 m - 52))%Z in
      let q := (m / u)%Z in
      let r := (m mod u)%Z in
      let q' :=
        if (2 * r <? u)%Z then q
        else if (u <? 2 * r)%Z then (q + 1)%Z
        else if Z.even q then q else (q + 1)%Z in
      Z.min (q' * u) (2 ^ 1024) in
  (Z.sgn n * x)%Z.

(** For an integer double [x] above [2^53], the integer of fewest
    significant digits that reads back as [x], the closest to [x] when there
    are several: [zeros] is the number of trailing zeros tried, from many to
    none.  An integer reads back as [x] when it lies between the midpoints
    to the doubles next to [x], the midpoints included when the significand
    of [x] is even. *)
Fixpoint shortest_from (zeros : nat) (x : Z) : Z :=
  match zeros with
  | O => x
  | S zeros' =>
      let u := (2 ^ (Z.log2 x - 52))%Z in
      let significand := (x / u)%Z in
      let below := if (significand =? 2 ^ 52)%Z then (u / 2)%Z else u in
      let reads_back := fun c : Z =>
        if Z.even significand
        then ((2 * x - below <=? 2 * c) && (2 * c <=? 2 * x + u))%Z
        else ((2 * x - below <? 2 * c) && (2 * c <? 2 * x + u))%Z in
      let p := (10 ^ Z.of_nat zeros)%Z in
      let c1 := (x / p * p)%Z in
      let c2 := (c1 + p)%Z in
      match reads_back c1, reads_back c2 with
      | false, false => shortest_from zeros' x
      | true, false => c1
      | false, true => c2
      | true, true =>
          if (x - c1 <? c2 - x)%Z then c1
          else if (c2 - x <? x - c1)%Z then c2
          else if Z.even (c1 / p) then c1 else c2
      end
  end.

Definition shortest (x : Z) : Z :=
  if (x <=? 2 ^ 53)%Z then x else shortest_from (Z.to_nat (Z.log2 x)) x.

Definition decimal (x : Z) : string := NilZero.string_of_int (Z.to_int x).

Fixpoint strip_zeros (reversed : string) : string :=
  match reversed with
  | String "0" rest => strip_zeros rest
  | _ => reversed
  end.

Fixpoint reverse (s acc : string) : string :=
  match s with
  | EmptyString => acc
  | String c rest => reverse rest (String c acc)
  end.

(** [Number::toString] of a positive integer double: its digits when there
    are at most 21 of them, else the significant digits, a point after the
    first when there are more, and the exponent. *)
Definition Number_toString_positive (x : Z) : string :=
  let digits := decimal (shortest x) in
  let n := String.length digits in
  if (n <=? 21)%nat then digits
  else
    let exponent := "e+" ++ decimal (Z.of_nat n - 1) in
    match reverse (strip_zeros (reverse digits EmptyString)) EmptyString with
    | String d EmptyString => String d exponent
    | String d more => String d ("." ++ more ++ exponent)
    | EmptyString => digits
    end.

Definition Number_toString (x : Z) : string :=
  if (x =? 0)%Z then "0"
  else if (x =? 2 ^ 1024)%Z then "Infinity"
  else if (x =? - 2 ^ 1024)%Z then "-Infinity"
  else if (x <? 0)%Z then "-" ++ Number_toString_positive (- x)
  else Number_toString_positive x.

(** ToString. *)
Definition ToString (v : value) : string :=
  match v with
  | VUndefined => "undefined"
  | VNull => "null"
  | VBool true => "true"
  | VBool false => "false"
  | VNumber n => Number_toString (Number_of_integer n)
  | VString s => s
  end.

(** [s + v] with a string on the left: concatenation with [ToString v]. *)
Definition add (s : string) (v : value) : string := s ++ ToString v.

Notation "s +' v" := (add s v) (at level 50, left associativity).

(** [a || b]. *)
Definition or_else (a b : value) : value := if truthy a then a else b.

(** [a === b]. *)
Definition strict_equals (a b : value) : bool :=
  match a, b with
  | VUndefined, VUndefined => true
  | VNull, VNull => true
  | VBool x, VBool y => Bool.eqb x y
  | VNumber x, VNumber y => (Number_of_integer x =? Number_of_integer y)%Z
  | VString x, VString y => (x =? y)
  | _, _ => false
  end.

(** lodash [isUndefined], [isNull], [isString]. *)
Definition isUndefined (v : value) : bool :=
  match v with VUndefined => true | _ => false end.

Definition isNull (v : value) : bool :=
  match v with VNull => true | _ => false end.

Definition isString (v : value) : bool :=
  match v with VString _ => true | _ => false end.

(** ** Errors *)

Inductive error : Type :=
| Error (message : string)
    (* [new Error(message)]; the errors of the HTTP layer are such too *)
| TypeError.
    (* raised by the engine *)

(** ** JSON values

    A JavaScript string is a sequence of UTF-16 code units. *)

Definition jstring : Type := list N.

Definition units (s : string) : jstring :=
  map N_of_ascii (list_ascii_of_string s).

(** A number keeps its literal [(-1)^neg * mantissa * 10^exp10]. *)
Inductive json : Type :=
| JNull
| JBool (b : bool)
| JNumber (neg : bool) (mantissa : N) (exp10 : Z)
| JString (s : jstring)
| JArray (elements : list json)
| JObject (members : list (jstring * json)).

Definition jstring_eqb (a b : jstring) : bool :=
  if list_eq_dec N.eq_dec a b then true else false.

Fixpoint lookup (key : jstring) (members : list (jstring * json))
  : option json :=
  match members with
  | [] => None
  | (k, v) :: rest => if jstring_eqb k key then Some v else lookup key rest
  end.

(** Defining a property: an existing key keeps its place and takes the new
    value (a repeated key of an object literal). *)
Fixpoint define (key : jstring) (v : json) (members : list (jstring * json))
  : list (jstring * json) :=
  match members with
  | [] => [(key, v)]
  | (k, w) :: rest =>
      if jstring_eqb k key then (k, v) :: rest else (k, w) :: define key v rest
  end.

(** The double nearest to [mantissa * 10^exp10] is zero: the mantissa is
    zero, or the magnitude is at most [2^-1075], half of the least
    subnormal. *)
Definition rounds_to_zero (mantissa : N) (exp10 : Z) : bool :=
  (mantissa =? 0)%N
  || ((exp10 <? 0)%Z
      && (Z.of_N mantissa * 2 ^ 1075 <=? 10 ^ (- exp10))%Z).

(** ToBoolean of a value read from a parsed response; [None] is
    [undefined]. *)
Definition json_truthy (v : option json) : bool :=
  match v with
  | None => false
  | Some JNull => false
  | Some (JBool b) => b
  | Some (JNumber _ m e) => negb (rounds_to_zero m e)
  | Some (JString s) => match s with [] => false | _ => true end
  | Some (JArray _) => true
  | Some (JObject _) => true
  end.

(** lodash [isUndefined] on a value read from a parsed response. *)
Definition json_isUndefined (v : option json) : bool :=
  match v with None => true | Some _ => false end.

(** ** Computations that may throw *)

Inductive result (A : Type) : Type :=
| Ok (a : A)
| Throw (e : error).
Arguments Ok {A} a.
Arguments Throw {A} e.

(** Reading property [key] of [v], for a key that the built-in prototypes do
    not define ([success], [data] and [_success] are such keys): an own
    property of an object, [undefined] on any other value that converts to
    an object, a TypeError on [null] and [undefined]. *)
Definition get_property (v : option json) (key : jstring)
  : result (option json) :=
  match v with
  | None => Throw TypeError
  | Some JNull => Throw TypeError
  | Some (JObject members) => Ok (lookup key members)
  | Some _ => Ok None
  end.

(** ** [JSON.parse] *)

Module JSON.

Definition is_ws (c : N) : bool :=
  ((c =? 32) || (c =? 9) || (c =? 10) || (c =? 13))%N.

Fixpoint skip_ws (s : jstring) : jstring :=
  match s with
  | c :: rest => if is_ws c then skip_ws rest else s
  | [] => []
  end.

Definition is_digit (c : N) : bool := ((48 <=? c) && (c <=? 57))%N.

Definition hex_digit (c : N) : option N :=
  if (48 <=? c)%N && (c <=? 57)%N then Some (c - 48)%N
  else if (65 <=? c)%N && (c <=? 70)%N then Some (c - 55)%N
  else if (97 <=? c)%N && (c <=? 102)%N then Some (c - 87)%N
  else None.

(** The characters after a backslash. *)
Definition escape (s : jstring) : option (N * jstring) :=
  match s with
  | c :: rest =>
      if (c =? 34)%N then Some (34, rest)%N
      else if (c =? 92)%N then Some (92, rest)%N
      else if (c =? 47)%N then Some (47, rest)%N
      else if (c =? 98)%N then Some (8, rest)%N
      else if (c =? 102)%N then Some (12, rest)%N
      else if (c =? 110)%N then Some (10, rest)%N
      else if (c =? 114)%N then Some (13, rest)%N
      else if (c =? 116)%N then Some (9, rest)%N
      else if (c =? 117)%N then
        match rest with
        | a :: b :: c' :: d :: rest' =>
            match hex_digit a, hex_digit b, hex_digit c', hex_digit d with
            | Some x, Some y, Some z, Some w =>
                Some (((x * 16 + y) * 16 + z) * 16 + w, rest')%N
            | _, _, _, _ => None
            end
        | _ => None
        end
      else None
  | [] => None
  end.

(** The characters of a string literal after its opening quote. *)
Fixpoint string_chars (fuel : nat) (acc : jstring) (s : jstring)
  : option (jstring * jstring) :=
  match fuel with
  | O => None
  | S fuel' =>
      match s with
      | [] => None
      | c :: rest =>
          if (c =? 34)%N then Some (rev acc, rest)
          else if (c =? 92)%N then
            match escape rest with
            | Some (u, rest') => string_chars fuel' (u :: acc) rest'
            | None => None
            end
          else if (c <? 32)%N then None
          else string_chars fuel' (c :: acc) rest
      end
  end.

(** A run of digits: their count, their number appended to [acc], and the
    rest of the input. *)
Fixpoint digits (acc : N) (count : nat) (s : jstring) : N * nat * jstring :=
  match s with
  | c :: rest =>
      if is_digit c then digits (acc * 10 + (c - 48))%N (S count) rest
      else (acc, count, s)
  | [] => (acc, count, [])
  end.

Definition exponent (s : jstring) : option (Z * jstring) :=
  match s with
  | c :: rest =>
      if ((c =? 101) || (c =? 69))%N then
        let '(sign, rest1) :=
          match rest with
          | d :: rest' =>
              if (d =? 43)%N then (1%Z, rest')
              else if (d =? 45)%N then ((-1)%Z, rest')
              else (1%Z, rest)
          | [] => (1%Z, rest)
          end in
        let '(e, n, rest2) := digits 0 0 rest1 in
        match n with
        | O => None
        | S _ => Some ((sign * Z.of_N e)%Z, rest2)
        end
      else Some (0%Z, s)
  | [] => Some (0%Z, [])
  end.

Definition fraction (int : N) (s : jstring) : option (N * Z * jstring) :=
  match s with
  | c :: rest =>
      if (c =? 46)%N then
        let '(m, n, rest') := digits int 0 rest in
        match n with
        | O => None
        | S _ => Some (m, (- Z.of_nat n)%Z, rest')
        end
      else Some (int, 0%Z, s)
  | [] => Some (int, 0%Z, [])
  end.

(** An optional minus sign; [0], or a digit [1-9] and more digits; an
    optional fraction, a dot and at least one digit; an optional exponent,
    [e] or [E], an optional sign and at least one digit. *)
Definition number (s : jstring) : option (json * jstring) :=
  let '(neg, s1) :=
    match s with
    | c :: rest => if (c =? 45)%N then (true, rest) else (false, s)
    | [] => (false, s)
    end in
  let int :=
    match s1 with
    | c :: rest =>
        if (c =? 48)%N then Some (0%N, rest)
        else if is_digit c then
          let '(i, _, rest') := digits 0 0 s1 in Some (i, rest')
        else None
    | [] => None
    end in
  match int with
  | None => None
  | Some (i, s2) =>
      match fraction i s2 with
      | None => None
      | Some (m, scale, s3) =>
          match exponent s3 with
          | None => None
          | Some (e, s4) => Some (JNumber neg m (scale + e), s4)
          end
      end
  end.

Fixpoint literal (word : jstring) (s : jstring) : option jstring :=
  match word with
  | [] => Some s
  | w :: word' =>
      match s with
      | c :: rest => if (c =? w)%N then literal word' rest else None
      | [] => None
      end
  end.

(** One JSON value at the head of [s] (whitespace already skipped), and the
    rest of the input. *)
Fixpoint parse_value (fuel : nat) (s : jstring) {struct fuel}
  : option (json * jstring) :=
  match fuel with
  | O => None
  | S fuel' =>
      match s with
      | [] => None
      | c :: rest =>
          if (c =? 123)%N then
            match skip_ws rest with
            | d :: rest' =>
                if (d =? 125)%N then Some (JObject [], rest')
                else parse_members fuel' [] (d :: rest')
            | [] => None
            end
          else if (c =? 91)%N then
            match skip_ws rest with
            | d :: rest' =>
                if (d =? 93)%N then Some (JArray [], rest')
                else parse_elements fuel' [] (d :: rest')
            | [] => None
            end
          else if (c =? 34)%N then
            match string_chars (S (List.length rest)) [] rest with
            | Some (str, rest') => Some (JString str, rest')
            | None => None
            end
          else if (c =? 110)%N then
            option_map (pair JNull) (literal (units "ull") rest)
          else if (c =? 116)%N then
            option_map (pair (JBool true)) (literal (units "rue") rest)
          else if (c =? 102)%N then
            option_map (pair (JBool false)) (literal (units "alse") rest)
          else number s
      end
  end

with parse_elements (fuel : nat) (acc : list json) (s : jstring)
  {struct fuel}
  : option (json * jstring) :=
  match fuel with
  | O => None
  | S fuel' =>
      match parse_value fuel' s with
      | Some (v, rest) =>
          match skip_ws rest with
          | c :: rest' =>
              if (c =? 44)%N then
                parse_elements fuel' (v :: acc) (skip_ws rest')
              else if (c =? 93)%N then Some (JArray (rev (v :: acc)), rest')
              else None
          | [] => None
          end
      | None => None
      end
  end

with parse_members (fuel : nat) (acc : list (jstring * json)) (s : jstring)
  {struct fuel} : option (json * jstring) :=
  match fuel with
  | O => None
  | S fuel' =>
      match s with
      | q :: s1 =>
          if (q =? 34)%N then
            match string_chars (S (List.length s1)) [] s1 with
            | Some (key, s2) =>
                match skip_ws s2 with
                | c :: s3 =>
                    if (c =? 58)%N then
                      match parse_value fuel' (skip_ws s3) with
                      | Some (v, s4) =>
                          match skip_ws s4 with
                          | d :: s5 =>
                              if (d =? 44)%N then
                                parse_members fuel' (define key v acc)
                                              (skip_ws s5)
                              else if (d =? 125)%N then
                                Some (JObject (define key v acc), s5)
                              else None
                          | [] => None
                          end
                      | None => None
                      end
                    else None
                | [] => None
                end
            | None => None
            end
          else None
      | [] => None
      end
  end.

(** [JSON.parse(text)]; [None] when it throws a SyntaxError.  The fuel is
    more than the recursion can use. *)
Definition parse (text : jstring) : option json :=
  match parse_value (2 * List.length text + 1) (skip_ws text) with
  | Some (v, rest) =>
      match skip_ws rest with
      | [] => Some v
      | _ :: _ => None
      end
  | None => None
  end.

End JSON.

(** Writing a body with apostrophes for its double quotes. *)
Definition body (s : string) : jstring :=
  map (fun c => if (c =? 39)%N then 34%N else c) (units s).

(** ** Objects, callbacks and effects *)

(** An object literal of the facade, read by key; a missing key reads as
    [undefined]. *)
Definition object : Type := list (string * value).

Fixpoint prop (o : object) (key : string) : value :=
  match o with
  | [] => VUndefined
  | (k, v) :: rest => if k =? key then v else prop rest key
  end.

(** [o.key = v]. *)
Fixpoint assign (o : object) (key : string) (v : value) : object :=
  match o with
  | [] => [(key, v)]
  | (k, w) :: rest =>
      if k =? key then (k, v) :: rest else (k, w) :: assign rest key v
  end.

(** What the caller passes where a callback is expected: a function,
    identified by [f], with what a call of it with [(err, response)] comes
    to, a return or an exception; or some other value. *)
Inductive callback : Type :=
| Callable (f : nat)
           (completion : option error -> option json -> result unit)
| NotInvocable (v : value).

(** A function that returns from every call. *)
Definition Invocable (f : nat) : callback := Callable f (fun _ _ => Ok tt).

(** lodash [isFunction]. *)
Definition isFunction (c : callback) : bool :=
  match c with Callable _ _ => true | NotInvocable _ => false end.

Record requestOptions : Type := {
  method : string;
  uri : string;
  headers : list (string * value)
}.

(** What an emitter hands to its listeners: the response stream, as the
    chunks it will deliver before it ends, or an error. *)
Inductive payload : Type :=
| Response (chunks : list jstring)
| Failure (e : error).

(** The one function of index.js that is registered as a listener, with
    the variable it closes over. *)
Inductive closure : Type :=
| OnResponse (callback : callback).

Record request : Type := {
  options : requestOptions;
  listeners : list (string * closure)
}.

Inductive event : Type :=
| Invoked (f : nat) (err : option error) (response : option json)
    (* [f(err, response)]: [None] is [null] as [err], [undefined] as
       [response] *)
| Requested (req : request)
    (* the request was created and ended: it goes out *)
| Unhandled (e : error).
    (* an exception left a listener *)

(** A computation: the events it caused, and its value or the exception
    that ended it. *)
Definition M (A : Type) : Type := (list event * result A)%type.

Definition ret {A} (a : A) : M A := ([], Ok a).

Definition throw {A} (e : error) : M A := ([], Throw e).

Definition bind {A B} (m : M A) (k : A -> M B) : M B :=
  let (log, r) := m in
  match r with
  | Ok a => let (log', r') := k a in ((log ++ log')%list, r')
  | Throw e => (log, Throw e)
  end.

Definition tell (ev : event) : M unit := ([ev], Ok tt).

Definition lift {A} (r : result A) : M A := ([], r).

Notation "x <- m ;; k" := (bind m (fun x => k))
  (at level 61, m at next level, right associativity).
Notation "m ;;; k" := (bind m (fun _ => k))
  (at level 61, right associativity).

(** [callback(err, response)]: the function is invoked and the call comes
    to what the function comes to, its exception included; calling what is
    not a function is a TypeError. *)
Definition call (c : callback) (err : option error) (response : option json)
  : M unit :=
  match c with
  | Callable f completion =>
      tell (Invoked f err response) ;;; lift (completion err response)
  | NotInvocable _ => throw TypeError
  end.

(** [req.on(name, l)]. *)
Definition on (req : request) (name : string) (l : closure) : request :=
  {| options := options req;
     listeners := (listeners req ++ [(name, l)])%list |}.

(** ** index.js *)

Definition ENDPOINT : string := "http://api.captainteemo.com".

Record platform : Type := { short : string; full : string }.

Definition PLATFORMS : list platform := [
  {| short := "na"; full := "North_America" |};
  {| short := "br"; full := "Brasil" |};
  {| short := "ru"; full := "Russia" |};
  {| short := "euw"; full := "Europe_West" |};
  {| short := "eun"; full := "Europe_East" |};
  {| short := "tr"; full := "Turkey" |};
  {| short := "las"; full := "Latin_America_South" |};
  {| short := "lan"; full := "Latin_America_North" |}
].

Definition brandError (value : string) : error :=
  Error ("node-resteemo - " ++ value).

(** lodash [find(collection, {key: v})]: the first element whose [key]
    is strictly equal to [v]; [None] is [undefined]. *)
Definition find_where (collection : list platform) (key : platform -> string)
  (v : value) : option platform :=
  find (fun p => strict_equals v (VString (key p))) collection.

Definition normalizePlatform (platform : value) : value :=
  let matchFromShortPlatform := find_where PLATFORMS short platform in
  match matchFromShortPlatform with
  | Some _ => platform
  | None =>
      let matchFromFullPlatform := find_where PLATFORMS full platform in
      match matchFromFullPlatform with
      | Some m => VString (short m)
      | None => VNull
      end
  end.

(** The listener of the response's ['end']: [response] is the body
    accumulated by the ['data'] listener. *)
Definition on_end (callback : callback) (response : jstring) : M unit :=
  match JSON.parse response with
  | None =>
      let error := brandError "invalid json response" in
      call callback (Some error) None
  | Some response =>
      success <- lift (get_property (Some response) (units "success")) ;;
      if negb (json_truthy success) then
        let error := brandError "api failed" in
        call callback (Some error) None
      else
        data <- lift (get_property (Some response) (units "data")) ;;
        _success <- lift (get_property data (units "_success")) ;;
        if negb (json_isUndefined _success) then
          data <- lift (get_property (Some response) (units "data")) ;;
          _success <- lift (get_property data (units "_success")) ;;
          if negb (json_truthy _success) then
            let error := brandError "api failed at second success check" in
            call callback (Some error) None
          else call callback None (Some response)
        else call callback None (Some response)
  end.

(** The listener of the request's ['response']. *)
Definition on_response (callback : callback) (p : payload) : M unit :=
  match p with
  | Response chunks =>
      let response := [] in
      let response :=
        fold_left (fun response chunk => (response ++ chunk)%list)
                  chunks response in
      on_end callback response
  | Failure _ => ret tt
  end.

Definition responseHandler (req : request) (callback : callback) : request :=
  on req "response" (OnResponse callback).

(** ** The emitter and the HTTP layer *)

Definition apply (l : closure) (p : payload) : M unit :=
  match l with
  | OnResponse callback => on_response callback p
  end.

Fixpoint run_listeners (ls : list (string * closure)) (p : payload) : M unit :=
  match ls with
  | [] => ret tt
  | (_, l) :: rest => apply l p ;;; run_listeners rest p
  end.

(** [req.emit(name, p)]: the listeners of [name] run in the order they were
    added; an ['error'] that nobody listens to is thrown. *)
Definition emit (req : request) (name : string) (p : payload) : M unit :=
  match filter (fun l => fst l =? name) (listeners req) with
  | [] =>
      if name =? "error" then
        match p with
        | Failure e => throw e
        | Response _ => throw (Error "Unhandled error.")
        end
      else ret tt
  | ls => run_listeners ls p
  end.

(** One turn of the event loop: an exception that leaves it is unhandled. *)
Definition turn (m : M unit) : list event :=
  let (log, r) := m in
  match r with
  | Ok _ => log
  | Throw e => (log ++ [Unhandled e])%list
  end.

(** What the HTTP layer does with a request that went out: it fails, or a
    response arrives with its body in chunks. *)
Inductive transport : Type :=
| Fails (e : error)
| Responds (chunks : list jstring).

Definition settle (t : transport) (req : request) : list event :=
  match t with
  | Fails e => turn (emit req "error" (Failure e))
  | Responds chunks => turn (emit req "response" (Response chunks))
  end.

(** ** The client *)

Section Client.

Variable refererString : value.

Definition prepareRequest (method path : string) (callback : callback)
  : M unit :=
  if negb (isFunction callback) then
    let error := brandError "missing callback" in
    throw error
  else
    let headers := [("Accept", VString "application/json");
                    ("User-Agent", refererString)] in
    let requestOptions :=
      {| method := method; uri := ENDPOINT ++ path; headers := headers |} in
    let req := {| options := requestOptions; listeners := [] |} in
    let req := responseHandler req callback in
    tell (Requested req).

Definition get (path : string) (callback : callback) : M unit :=
  prepareRequest "GET" path callback.

Definition constructPath (options : object) (callback : callback) : M unit :=
  let shortPlatform := normalizePlatform (prop options "platform") in
  if isNull shortPlatform then
    let error := brandError "invalid platform" in
    call callback (Some error) None
  else
    let options :=
      if isUndefined (prop options "path") then
        assign options "path" (VString EmptyString)
      else
        assign options "path" (VString ("/" +' prop options "path")) in
    if truthy (prop options "summoner") then
      get ("/player/" +' shortPlatform +' VString "/"
             +' prop options "summoner" +' prop options "path"
             +' or_else (prop options "season") (VString EmptyString))
          callback
    else if truthy (or_else (prop options "tag") (prop options "guid")) then
      get ("/team/" +' shortPlatform +' prop options "path" +' VString "/"
             +' or_else (prop options "tag") (prop options "guid")
             +' (if truthy (prop options "guid")
                 then VString "/leagues" else VString EmptyString))
          callback
    else
      get ("/service-state/" +' shortPlatform +' prop options "path")
          callback.

(** The public operations: [teemo.player], [teemo.player.ingame], ...,
    [teemo.team], [teemo.team.leagues], [teemo.freeWeek]. *)

Definition teemo_player (platform summoner : value)
  (callback : callback) : M unit :=
  constructPath [("platform", platform); ("summoner", summoner)] callback.

Definition teemo_player_ingame (platform summoner : value)
  (callback : callback) : M unit :=
  constructPath [("platform", platform); ("summoner", summoner);
                 ("path", VString "ingame")] callback.

Definition teemo_player_recentGames (platform summoner : value)
  (callback : callback) : M unit :=
  constructPath [("platform", platform); ("summoner", summoner);
                 ("path", VString "recent_games")] callback.

Definition teemo_player_influencePoints (platform summoner : value)
  (callback : callback) : M unit :=
  constructPath [("platform", platform); ("summoner", summoner);
                 ("path", VString "influence_points")] callback.

Definition teemo_player_runes (platform summoner : value)
  (callback : callback) : M unit :=
  constructPath [("platform", platform); ("summoner", summoner);
                 ("path", VString "runes")] callback.

Definition teemo_player_mastery (platform summoner : value)
  (callback : callback) : M unit :=
  constructPath [("platform", platform); ("summoner", summoner);
                 ("path", VString "mastery")] callback.

Definition teemo_player_leagues (platform summoner : value)
  (callback : callback) : M unit :=
  constructPath [("platform", platform); ("summoner", summoner);
                 ("path", VString "leagues")] callback.

Definition teemo_player_honor (platform summoner : value)
  (callback : callback) : M unit :=
  constructPath [("platform", platform); ("summoner", summoner);
                 ("path", VString "honor")] callback.

Definition teemo_player_rankedStats (platform summoner season : value)
  (callback : callback) : M unit :=
  constructPath [("platform", platform); ("summoner", summoner);
                 ("path", VString "ranked_stats/season/");
                 ("season", season)] callback.

Definition teemo_player_teams (platform summoner : value)
  (callback : callback) : M unit :=
  constructPath [("platform", platform); ("summoner", summoner);
                 ("path", VString "teams")] callback.

Definition teemo_team (platform tag : value)
  (callback : callback) : M unit :=
  constructPath [("platform", platform); ("tag", tag);
                 ("path", VString "tag")] callback.

Definition teemo_team_leagues (platform guid : value)
  (callback : callback) : M unit :=
  constructPath [("platform", platform); ("guid", guid);
                 ("path", VString "guid")] callback.

Definition teemo_freeWeek (platform : value) (callback : callback) : M unit :=
  constructPath [("platform", platform); ("path", VString "free-week")]
                callback.

End Client.

(** The object that [module.exports] returns. *)
Record Teemo : Type := {
  player : value -> value -> callback -> M unit;
  player_ingame : value -> value -> callback -> M unit;
  player_recentGames : value -> value -> callback -> M unit;
  player_influencePoints : value -> value -> callback -> M unit;
  player_runes : value -> value -> callback -> M unit;
  player_mastery : value -> value -> callback -> M unit;
  player_leagues : value -> value -> callback -> M unit;
  player_honor : value -> value -> callback -> M unit;
  player_rankedStats : value -> value -> value -> callback -> M unit;
  player_teams : value -> value -> callback -> M unit;
  team : value -> value -> callback -> M unit;
  team_leagues : value -> value -> callback -> M unit;
  freeWeek : value -> callback -> M unit
}.

Definition module_exports (refererString : value) : M Teemo :=
  if negb (isString refererString) then
    let error := brandError "`refererString` not defined" in
    throw error
  else
    ret {| player := teemo_player refererString;
           player_ingame := teemo_player_ingame refererString;
           player_recentGames := teemo_player_recentGames refererString;
           player_influencePoints := teemo_player_influencePoints refererString;
           player_runes := teemo_player_runes refererString;
           player_mastery := teemo_player_mastery refererString;
           player_leagues := teemo_player_leagues refererString;
           player_honor := teemo_player_honor refererString;
           player_rankedStats := teemo_player_rankedStats refererString;
           player_teams := teemo_player_teams refererString;
           team := teemo_team refererString;
           team_leagues := teemo_team_leagues refererString;
           freeWeek := teemo_freeWeek refererString |}.

(** ** Vocabulary of the specification *)

Definition MissingConfig : error := brandError "`refererString` not defined".
Definition MissingCallback : error := brandError "missing callback".
Definition InvalidPlatform : error := brandError "invalid platform".
Definition InvalidJSON : error := brandError "invalid json response".

Definition ApiFailure (e : error) : Prop :=
  e = brandError "api failed"
  \/ e = brandError "api failed at second success check".

(** The requests that went out, the (method, uri) pairs of a computation's
    requests, and the callback invocations, in order. *)
Definition requests (log : list event) : list request :=
  flat_map (fun ev => match ev with Requested r => [r] | _ => [] end) log.

Definition issued (m : M unit) : list (string * string) :=
  map (fun r => (method (options r), uri (options r))) (requests (fst m)).

Definition invocations (log : list event)
  : list (nat * option error * option json) :=
  flat_map (fun ev => match ev with
                      | Invoked f err response => [(f, err, response)]
                      | _ => []
                      end) log.

(** A call from its start to the end of the HTTP exchange: the events of
    the call itself, then those of the turn in which the HTTP layer settles
    each request it made. *)
Definition history (t : transport) (m : M unit) : list event :=
  (fst m ++ flat_map (settle t) (requests (fst m)))%list.

(** The sub-path segment of a request intent. *)
Definition subpath (options : object) : string :=
  if isUndefined (prop options "path") then EmptyString
  else add "/" (prop options "path").

(** The path that the builder requests for an intent whose platform has the
    short code [code], in the grammar of the three forms: summoner form,
    team form, service-state form. *)
Definition path_grammar (code : string) (options : object) : string :=
  if truthy (prop options "summoner") then
    "/player/" ++ code ++ "/" ++ ToString (prop options "summoner")
      ++ subpath options
      ++ ToString (or_else (prop options "season") (VString EmptyString))
  else if truthy (prop options "tag") || truthy (prop options "guid") then
    "/team/" ++ code ++ subpath options ++ "/"
      ++ ToString (or_else (prop options "tag") (prop options "guid"))
      ++ (if truthy (prop options "guid") then "/leagues" else EmptyString)
  else "/service-state/" ++ code ++ subpath options.

(** The team form with the suffix tied to the identifier that was spliced:
    [/leagues] when the guid was, nothing when the tag was. *)
Definition team_path_by_identifier (code : string) (options : object)
  : string :=
  "/team/" ++ code ++ subpath options ++ "/"
    ++ ToString (or_else (prop options "tag") (prop options "guid"))
    ++ (if truthy (prop options "tag") then EmptyString else "/leagues").

(** An intent with both team identifiers. *)
Definition tag_and_guid : object :=
  [("platform", VString "euw"); ("tag", VString "abc");
   ("guid", VString "xyz"); ("path", VString "tag")].

(** The public operations, and calling one with positional arguments (a
    missing argument is [undefined]) and what stands for the callback. *)
Inductive operation : Type :=
| OpPlayer | OpIngame | OpRecentGames | OpInfluencePoints | OpRunes
| OpMastery | OpLeagues | OpHonor | OpRankedStats | OpTeams
| OpTeam | OpTeamLeagues | OpFreeWeek.

Definition invoke (t : Teemo) (op : operation) (args : list value)
  (callback : callback) : M unit :=
  let arg := fun i => nth i args VUndefined in
  match op with
  | OpPlayer => player t (arg 0%nat) (arg 1%nat) callback
  | OpIngame => player_ingame t (arg 0%nat) (arg 1%nat) callback
  | OpRecentGames => player_recentGames t (arg 0%nat) (arg 1%nat) callback
  | OpInfluencePoints =>
      player_influencePoints t (arg 0%nat) (arg 1%nat) callback
  | OpRunes => player_runes t (arg 0%nat) (arg 1%nat) callback
  | OpMastery => player_mastery t (arg 0%nat) (arg 1%nat) callback
  | OpLeagues => player_leagues t (arg 0%nat) (arg 1%nat) callback
  | OpHonor => player_honor t (arg 0%nat) (arg 1%nat) callback
  | OpRankedStats =>
      player_rankedStats t (arg 0%nat) (arg 1%nat) (arg 2%nat) callback
  | OpTeams => player_teams t (arg 0%nat) (arg 1%nat) callback
  | OpTeam => team t (arg 0%nat) (arg 1%nat) callback
  | OpTeamLeagues => team_leagues t (arg 0%nat) (arg 1%nat) callback
  | OpFreeWeek => freeWeek t (arg 0%nat) callback
  end.

(** The request intent, the object literal that each operation hands to the
    path builder. *)
Definition intent (op : operation) (args : list value) : object :=
  let arg := fun i => nth i args VUndefined in
  let summoner_lookup := fun sub =>
    [("platform", arg 0%nat); ("summoner", arg 1%nat); ("path", VString sub)] in
  match op with
  | OpPlayer => [("platform", arg 0%nat); ("summoner", arg 1%nat)]
  | OpIngame => summoner_lookup "ingame"
  | OpRecentGames => summoner_lookup "recent_games"
  | OpInfluencePoints => summoner_lookup "influence_points"
  | OpRunes => summoner_lookup "runes"
  | OpMastery => summoner_lookup "mastery"
  | OpLeagues => summoner_lookup "leagues"
  | OpHonor => summoner_lookup "honor"
  | OpRankedStats =>
      [("platform", arg 0%nat); ("summoner", arg 1%nat);
       ("path", VString "ranked_stats/season/"); ("season", arg 2%nat)]
  | OpTeams => summoner_lookup "teams"
  | OpTeam => [("platform", arg 0%nat); ("tag", arg 1%nat);
               ("path", VString "tag")]
  | OpTeamLeagues => [("platform", arg 0%nat); ("guid", arg 1%nat);
                      ("path", VString "guid")]
  | OpFreeWeek => [("platform", arg 0%nat); ("path", VString "free-week")]
  end.

(** Reading a field the way the specification speaks of it: absent, also
    on what is not an object, is [undefined]. *)
Definition field (v : option json) (key : string) : option json :=
  match v with
  | Some (JObject members) => lookup (units key) members
  | _ => None
  end.

(** [null] or [undefined]. *)
Definition nullish (v : option json) : bool :=
  match v with
  | None | Some JNull => true
  | Some _ => false
  end.

(** An object, arrays included. *)
Definition is_object (v : option json) : bool :=
  match v with
  | Some (JObject _) | Some (JArray _) => true
  | _ => false
  end.

(** The response validator as the specification words it: the three
    checks, in their order. *)
Inductive verdict : Type :=
| IsInvalidJSON
| IsApiFailure
| Unchanged (response : json).

Definition validate (body : jstring) : verdict :=
  match JSON.parse body with
  | None => IsInvalidJSON
  | Some r =>
      if negb (json_truthy (field (Some r) "success")) then IsApiFailure
      else
        match field (field (Some r) "data") "_success" with
        | Some s =>
            if negb (json_truthy (Some s)) then IsApiFailure else Unchanged r
        | None => Unchanged r
        end
  end.

(** The computation [m] told callback [f] the verdict, once, and
    returned. *)
Definition delivered (f : nat) (m : M unit) (v : verdict) : Prop :=
  match v with
  | IsInvalidJSON => m = ([Invoked f (Some InvalidJSON) None], Ok tt)
  | IsApiFailure =>
      exists e, ApiFailure e /\ m = ([Invoked f (Some e) None], Ok tt)
  | Unchanged r => m = ([Invoked f None (Some r)], Ok tt)
  end.

(** The bodies that the validator handles without a fault: those that do
    not parse, and those that parse to a value other than [null] whose
    [data] is neither absent nor [null] when its [success] is truthy. *)
Definition required_shape (body : jstring) : bool :=
  match JSON.parse body with
  | None => true
  | Some r =>
      negb (nullish (Some r))
      && (negb (json_truthy (field (Some r) "success"))
          || negb (nullish (field (Some r) "data")))
  end.

(** ** The parser does not run out of fuel *)

Module JSONFacts.
Import JSON.

(** The scrutinee that a term's evaluation waits for: inside the scrutinee
    of a [match], down to one that holds no [match]. *)
Ltac scrutinee t k :=
  lazymatch t with
  | context [match ?x with _ => _ end] => scrutinee x k
  | _ => k t
  end.

Ltac case_on x := scrutinee x ltac:(fun y => destruct y eqn:?).

Ltac break_match H :=
  let T := type of H in
  lazymatch T with
  | context [match ?x with _ => _ end] => case_on x
  end.

Lemma skip_ws_length (s : jstring) :
  (List.length (skip_ws s) <= List.length s)%nat.
Proof.
  induction s as [|c s IH]; simpl; [lia|].
  destruct (is_ws c); simpl; lia.
Qed.

Lemma escape_length (s r : jstring) (u : N) :
  escape s = Some (u, r) -> (List.length r < List.length s)%nat.
Proof.
  unfold escape. intros H.
  repeat (break_match H; try discriminate);
    injection H as <- <-; subst; simpl; lia.
Qed.

Lemma string_chars_length (n : nat) (acc s str r : jstring) :
  string_chars n acc s = Some (str, r) -> (List.length r < List.length s)%nat.
Proof.
  revert acc s. induction n as [|n IH]; intros acc s H; simpl in H.
  - discriminate.
  - repeat (break_match H; try discriminate); subst.
    + injection H as <- <-. simpl. lia.
    + apply IH in H. apply escape_length in Heqo. simpl. lia.
    + apply IH in H. simpl. lia.
Qed.

Lemma string_chars_stable (n m : nat) (acc s : jstring) :
  (List.length s < n)%nat -> (List.length s < m)%nat ->
  string_chars n acc s = string_chars m acc s.
Proof.
  revert m acc s. induction n as [|n IH]; intros m acc s Hn Hm; [lia|].
  destruct m as [|m]; [lia|]. simpl.
  destruct s as [|c rest]; [reflexivity|]. simpl in Hn, Hm.
  destruct (c =? 34)%N; [reflexivity|].
  destruct (c =? 92)%N.
  - destruct (escape rest) as [[u rest']|] eqn:E; [|reflexivity].
    apply escape_length in E. apply IH; lia.
  - destruct (c <? 32)%N; [reflexivity|]. apply IH; lia.
Qed.

Lemma digits_length (s : jstring) (acc : N) (count : nat) :
  (List.length (snd (digits acc count s)) <= List.length s)%nat
  /\ (count <= snd (fst (digits acc count s)))%nat
  /\ (snd (fst (digits acc count s)) = count -> snd (digits acc count s) = s).
Proof.
  revert acc count. induction s as [|c s IH]; intros acc count; simpl.
  - repeat split; lia.
  - destruct (is_digit c); simpl; [|repeat split; lia].
    destruct (IH (acc * 10 + (c - 48))%N (S count)) as [H1 [H2 H3]].
    repeat split; try lia.
Qed.


Lemma digits_rest (s : jstring) (acc a : N) (count n : nat) (r : jstring) :
  digits acc count s = (a, n, r) -> (List.length r <= List.length s)%nat.
Proof.
  intros H. pose proof (digits_length s acc count) as [Hlen _].
  now rewrite H in Hlen.
Qed.

Lemma exponent_length (s r : jstring) (e : Z) :
  exponent s = Some (e, r) -> (List.length r <= List.length s)%nat.
Proof.
  unfold exponent. intros H.
  repeat (break_match H; try discriminate); subst;
    try (injection H as <- <-); simpl; try lia;
    repeat match goal with
           | E : (_, _) = (_, _) |- _ => injection E as <- <-
           | E : digits _ _ _ = _ |- _ => apply digits_rest in E
           end; simpl in *; lia.
Qed.

Lemma fraction_length (i : N) (s r : jstring) (m : N) (scale : Z) :
  fraction i s = Some (m, scale, r) -> (List.length r <= List.length s)%nat.
Proof.
  unfold fraction. intros H.
  repeat (break_match H; try discriminate); subst;
    try (injection H as <- <- <-); simpl; try lia;
    repeat match goal with
           | E : digits _ _ _ = _ |- _ => apply digits_rest in E
           end; simpl in *; lia.
Qed.

Lemma number_length (s r : jstring) (v : json) :
  number s = Some (v, r) -> (List.length r < List.length s)%nat.
Proof.
  unfold number. intros H.
  repeat (break_match H; try discriminate); subst;
    injection H as <- <-;
    repeat match goal with
           | E : (_, _) = (_, _) |- _ => injection E as <- <-
           | E : Some _ = Some _ |- _ => injection E as <- <-
           | D : is_digit ?c = true, E : digits _ _ (?c :: _) = _ |- _ =>
               simpl in E; rewrite D in E; apply digits_rest in E
           | E : digits _ _ _ = _ |- _ => apply digits_rest in E
           | E : fraction _ _ = Some _ |- _ => apply fraction_length in E
           | E : exponent _ = Some _ |- _ => apply exponent_length in E
           end; simpl in *; lia.
Qed.

Lemma literal_length (word s r : jstring) :
  literal word s = Some r -> (List.length r <= List.length s)%nat.
Proof.
  revert s. induction word as [|w word IH]; intros s H; simpl in H.
  - injection H as <-. lia.
  - destruct s as [|c rest]; [discriminate|].
    destruct (c =? w)%N; [|discriminate]. apply IH in H. simpl. lia.
Qed.


(** The facts on lengths that the equations of the sub-parsers give. *)
Ltac lengths_base :=
  repeat match goal with
         | E : string_chars _ _ _ = Some _ |- _ =>
             apply string_chars_length in E
         | E : number _ = Some _ |- _ => apply number_length in E
         | E : literal _ _ = Some _ |- _ => apply literal_length in E
         | E : skip_ws ?x = _ |- _ =>
             pose proof (skip_ws_length x); rewrite E in *; clear E
         | |- context [skip_ws ?x] =>
             pose proof (skip_ws_length x);
             generalize dependent (skip_ws x); intros
         | E : context [skip_ws ?x] |- _ =>
             pose proof (skip_ws_length x);
             generalize dependent (skip_ws x); intros
         end;
  simpl List.length in *.

(** A value, an element list and a member list each consume at least one
    character. *)
Lemma parse_lengths_fuel (n : nat) :
  (forall s v r, parse_value n s = Some (v, r) ->
                 (List.length r < List.length s)%nat)
  /\ (forall acc s v r, parse_elements n acc s = Some (v, r) ->
                        (List.length r < List.length s)%nat)
  /\ (forall acc s v r, parse_members n acc s = Some (v, r) ->
                        (List.length r < List.length s)%nat).
Proof.
  induction n as [|n [IHv [IHe IHm]]].
  - repeat split; intros; discriminate.
  - split; [|split].
    + intros s v r H. cbn [parse_value] in H.
      repeat (break_match H; try discriminate); subst;
        try (injection H as <- <-);
        repeat match goal with
               | E : parse_members _ _ _ = Some _ |- _ => apply IHm in E
               | E : parse_elements _ _ _ = Some _ |- _ => apply IHe in E
               | E : option_map _ _ = Some _ |- _ => unfold option_map in E
               | E : match literal ?w ?s with _ => _ end = Some _ |- _ =>
                   destruct (literal w s) eqn:?; [|discriminate];
                   injection E as <- <-
               end;
        lengths_base; lia.
    + intros acc s v r H. cbn [parse_elements] in H.
      repeat (break_match H; try discriminate); subst;
        try (injection H as <- <-);
        repeat match goal with
               | E : parse_value _ _ = Some _ |- _ => apply IHv in E
               | E : parse_elements _ _ _ = Some _ |- _ => apply IHe in E
               end;
        lengths_base; lia.
    + intros acc s v r H. cbn [parse_members] in H.
      repeat (break_match H; try discriminate); subst;
        try (injection H as <- <-);
        repeat match goal with
               | E : parse_value _ _ = Some _ |- _ => apply IHv in E
               | E : parse_members _ _ _ = Some _ |- _ => apply IHm in E
               end;
        lengths_base; lia.
Qed.

Lemma parse_lengths (n : nat) (s r : jstring) (v : json) :
  parse_value n s = Some (v, r) -> (List.length r < List.length s)%nat.
Proof. apply parse_lengths_fuel. Qed.

Lemma parse_elements_lengths (n : nat) (acc : list json) (s r : jstring)
  (v : json) :
  parse_elements n acc s = Some (v, r) -> (List.length r < List.length s)%nat.
Proof. apply parse_lengths_fuel. Qed.

Lemma parse_members_lengths (n : nat) (acc : list (jstring * json))
  (s r : jstring) (v : json) :
  parse_members n acc s = Some (v, r) -> (List.length r < List.length s)%nat.
Proof. apply parse_lengths_fuel. Qed.

Ltac lengths :=
  repeat match goal with
         | E : parse_value _ _ = Some _ |- _ => apply parse_lengths in E
         | E : parse_elements _ _ _ = Some _ |- _ =>
             apply parse_elements_lengths in E
         | E : parse_members _ _ _ = Some _ |- _ =>
             apply parse_members_lengths in E
         end;
  lengths_base.

Ltac break_goal :=
  lazymatch goal with
  | |- context [match ?x with _ => _ end] => case_on x
  end.

(** Above twice the length of the input, the fuel does not matter. *)
Lemma parse_stable (n : nat) :
  forall m,
    (forall s, (2 * List.length s < n)%nat -> (2 * List.length s < m)%nat ->
               parse_value n s = parse_value m s)
    /\ (forall acc s,
           (2 * List.length s + 1 < n)%nat -> (2 * List.length s + 1 < m)%nat ->
           parse_elements n acc s = parse_elements m acc s)
    /\ (forall acc s,
           (2 * List.length s + 1 < n)%nat -> (2 * List.length s + 1 < m)%nat ->
           parse_members n acc s = parse_members m acc s).
Proof.
  induction n as [|n IH]; intros m.
  - repeat split; intros; lia.
  - destruct m as [|m]; [repeat split; intros; lia|].
    destruct (IH m) as [IHv [IHe IHm]].
    split; [|split].
    + intros s Hn Hm. cbn [parse_value].
      repeat first
        [ reflexivity
        | match goal with
          | |- context [parse_elements n ?acc ?s'] =>
              rewrite (IHe acc s') by (lengths; lia)
          | |- context [parse_members n ?acc ?s'] =>
              rewrite (IHm acc s') by (lengths; lia)
          end
        | break_goal ].
    + intros acc s Hn Hm. cbn [parse_elements].
      repeat first
        [ reflexivity
        | match goal with
          | |- context [parse_value n ?s'] =>
              rewrite (IHv s') by (lengths; lia)
          | |- context [parse_elements n ?acc' ?s'] =>
              rewrite (IHe acc' s') by (lengths; lia)
          end
        | break_goal ].
    + intros acc s Hn Hm. cbn [parse_members].
      repeat first
        [ reflexivity
        | match goal with
          | |- context [parse_value n ?s'] =>
              rewrite (IHv s') by (lengths; lia)
          | |- context [parse_members n ?acc' ?s'] =>
              rewrite (IHm acc' s') by (lengths; lia)
          end
        | break_goal ].
Qed.

(** [parse] gives the same answer with any larger fuel: it never fails
    for want of fuel. *)
Lemma parse_fuel (text : jstring) (n : nat) :
  (2 * List.length text < n)%nat ->
  parse_value n (skip_ws text)
  = parse_value (2 * List.length text + 1) (skip_ws text).
Proof.
  intros Hn. pose proof (skip_ws_length text).
  apply parse_stable; lia.
Qed.

End JSONFacts.

(** ** Platform normaliser *)

(** Case analysis on a hypothesis [H : In p PLATFORMS]: [tac] for each of
    the entries. *)
Ltac each_platform H tac :=
  simpl in H; repeat (destruct H as [<- | H]; [tac|]); try contradiction.

Lemma strict_equals_string (v : value) (s : string) :
  strict_equals v (VString s) = true -> v = VString s.
Proof.
  destruct v; simpl; try discriminate.
  intros H. apply String.eqb_eq in H. now subst.
Qed.

Lemma find_where_sound (key : platform -> string) (v : value) (p : platform) :
  find_where PLATFORMS key v = Some p -> In p PLATFORMS /\ v = VString (key p).
Proof.
  unfold find_where. intros H.
  apply find_some in H. destruct H as [Hin Heq].
  split; [exact Hin | now apply strict_equals_string].
Qed.

Lemma find_where_absent (key : platform -> string) (s : string) :
  (forall p, In p PLATFORMS -> s <> key p) ->
  find_where PLATFORMS key (VString s) = None.
Proof.
  intros Hout.
  destruct (find_where PLATFORMS key (VString s)) as [p|] eqn:E; [|reflexivity].
  apply find_where_sound in E. destruct E as [Hin Heq].
  injection Heq as Heq. exfalso. now apply (Hout p Hin).
Qed.

(** The normaliser answers [null], or the short code of an entry of the
    table that the argument names by its short code or by its full name. *)
Lemma normalizePlatform_cases (v : value) :
  normalizePlatform v = VNull
  \/ exists p, In p PLATFORMS
               /\ normalizePlatform v = VString (short p)
               /\ (v = VString (short p) \/ v = VString (full p)).
Proof.
  unfold normalizePlatform.
  destruct (find_where PLATFORMS short v) as [p|] eqn:Es.
  - apply find_where_sound in Es. destruct Es as [Hin Heq].
    right. exists p. repeat split; auto.
  - destruct (find_where PLATFORMS full v) as [p|] eqn:Ef.
    + apply find_where_sound in Ef. destruct Ef as [Hin Heq].
      right. exists p. repeat split; auto.
    + now left.
Qed.

(** C4. For each of the 8 entries of the platform table, the normaliser
    returns the short code unchanged and maps the full name to the same
    short code; every string that is none of these 16 forms is answered
    with the not-found sentinel [null], a value and not an exception. *)
Theorem normalizePlatform_known_forms :
  List.length PLATFORMS = 8%nat
  /\ (forall p, In p PLATFORMS ->
        normalizePlatform (VString (short p)) = VString (short p)
        /\ normalizePlatform (VString (full p)) = VString (short p))
  /\ (forall s, (forall p, In p PLATFORMS -> s <> short p /\ s <> full p) ->
        normalizePlatform (VString s) = VNull).
Proof.
  split; [reflexivity|]. split.
  - intros p Hin. each_platform Hin ltac:(split; reflexivity).
  - intros s Hout. unfold normalizePlatform.
    rewrite (find_where_absent short) by (intros p Hin; apply (Hout p Hin)).
    rewrite (find_where_absent full) by (intros p Hin; apply (Hout p Hin)).
    reflexivity.
Qed.

Lemma normalizePlatform_known_forms_witness :
  normalizePlatform (VString "euw") = VString "euw"
  /\ normalizePlatform (VString "Europe_West") = VString "euw"
  /\ normalizePlatform (VString "kr") = VNull.
Proof.
  destruct normalizePlatform_known_forms as [_ [Hknown Hother]].
  destruct (Hknown {| short := "euw"; full := "Europe_West" |}) as [Hs Hf].
  - simpl. tauto.
  - split; [exact Hs|]. split; [exact Hf|].
    apply Hother. intros p Hin. each_platform Hin ltac:(split; discriminate).
Defined.

(** ** Path builder *)

Lemma append_assoc (a b c : string) : (a ++ b) ++ c = a ++ (b ++ c).
Proof. induction a as [|x a IH]; simpl; [reflexivity | now rewrite IH]. Qed.

Lemma append_nil_r (a : string) : a ++ EmptyString = a.
Proof. induction a as [|x a IH]; simpl; [reflexivity | now rewrite IH]. Qed.

Lemma prop_assign_same (o : object) (k : string) (v : value) :
  prop (assign o k v) k = v.
Proof.
  induction o as [|[k' w] o IH]; simpl.
  - now rewrite String.eqb_refl.
  - destruct (k' =? k) eqn:E; simpl; rewrite E; [reflexivity | exact IH].
Qed.

Lemma prop_assign_other (o : object) (k k' : string) (v : value) :
  k <> k' -> prop (assign o k v) k' = prop o k'.
Proof.
  intros Hne. induction o as [|[k0 w] o IH]; simpl.
  - apply String.eqb_neq in Hne. now rewrite Hne.
  - destruct (k0 =? k) eqn:E; simpl.
    + apply String.eqb_eq in E. subst k0.
      apply String.eqb_neq in Hne. now rewrite Hne.
    + now rewrite IH.
Qed.

Lemma truthy_or_else (a b : value) :
  truthy (or_else a b) = truthy a || truthy b.
Proof.
  unfold or_else.
  destruct (truthy a) eqn:E; simpl; [exact E | reflexivity].
Qed.

(** With a platform that resolves to [code], the path builder performs
    the GET of the path that the grammar gives. *)
Lemma constructPath_resolved (rs : value) (options : object) (cb : callback)
  (code : string) :
  normalizePlatform (prop options "platform") = VString code ->
  constructPath rs options cb = get rs (path_grammar code options) cb.
Proof.
  intros Hcode. unfold constructPath, path_grammar, subpath.
  rewrite Hcode. cbn [isNull].
  destruct (isUndefined (prop options "path")) eqn:Epath;
    rewrite !prop_assign_same, !prop_assign_other by discriminate;
    rewrite truthy_or_else;
    destruct (truthy (prop options "summoner"));
    destruct (truthy (prop options "tag") || truthy (prop options "guid"));
    unfold add; cbn [ToString];
    rewrite ?append_assoc, ?append_nil_r; try reflexivity;
    destruct (truthy (prop options "guid")); cbn [ToString];
    rewrite ?append_assoc, ?append_nil_r; reflexivity.
Qed.

Lemma issued_get_callable (rs : value) (path : string) (f : nat)
  (completion : option error -> option json -> result unit) :
  issued (get rs path (Callable f completion)) = [("GET", ENDPOINT ++ path)].
Proof. reflexivity. Qed.

Lemma issued_get (rs : value) (path : string) (f : nat) :
  issued (get rs path (Invocable f)) = [("GET", ENDPOINT ++ path)].
Proof. reflexivity. Qed.

Lemma issued_not_invocable (rs : value) (path : string) (v : value) :
  issued (get rs path (NotInvocable v)) = [].
Proof. reflexivity. Qed.

Lemma short_codes_are_not_full_names (p : platform) :
  In p PLATFORMS -> ~ In (short p) (map full PLATFORMS).
Proof.
  intros Hin Hfull.
  each_platform Hin ltac:(simpl in Hfull; intuition discriminate).
Qed.

Lemma subpath_shape (options : object) :
  subpath options = EmptyString \/ exists rest, subpath options = "/" ++ rest.
Proof.
  unfold subpath. destruct (isUndefined (prop options "path")).
  - now left.
  - right. exists (ToString (prop options "path")). reflexivity.
Qed.

(** C2. The summoner form: platform [na], summoner [Faker], no sub-path and
    no season give [/player/na/Faker]; platform [North_America], summoner
    [Faker] and sub-path [runes] give [/player/na/Faker/runes]; and in every
    request that the path builder makes, the segment after the form's prefix
    is the short code of the table entry that the caller named, by either
    form, and is none of the full names. *)
Theorem constructPath_summoner_form :
  (forall rs f,
      issued (constructPath rs [("platform", VString "na");
                                ("summoner", VString "Faker")] (Invocable f))
      = [("GET", ENDPOINT ++ "/player/na/Faker")])
  /\ (forall rs f,
      issued (constructPath rs [("platform", VString "North_America");
                                ("summoner", VString "Faker");
                                ("path", VString "runes")] (Invocable f))
      = [("GET", ENDPOINT ++ "/player/na/Faker/runes")])
  /\ (forall rs options cb verb u,
      In (verb, u) (issued (constructPath rs options cb)) ->
      exists p rest,
        In p PLATFORMS
        /\ (prop options "platform" = VString (short p)
            \/ prop options "platform" = VString (full p))
        /\ ~ In (short p) (map full PLATFORMS)
        /\ (rest = EmptyString \/ exists rest', rest = "/" ++ rest')
        /\ (u = ENDPOINT ++ "/player/" ++ short p ++ rest
            \/ u = ENDPOINT ++ "/team/" ++ short p ++ rest
            \/ u = ENDPOINT ++ "/service-state/" ++ short p ++ rest)).
Proof.
  split; [reflexivity|]. split; [reflexivity|].
  intros rs options cb verb u Hin.
  destruct (normalizePlatform_cases (prop options "platform"))
    as [Hnull | [p [Hp [Hcode Hnamed]]]].
  - unfold constructPath in Hin. rewrite Hnull in Hin. cbn [isNull] in Hin.
    destruct cb; simpl in Hin; contradiction.
  - rewrite (constructPath_resolved _ _ _ _ Hcode) in Hin.
    destruct cb as [f completion | v]; [|simpl in Hin; contradiction].
    rewrite issued_get_callable in Hin. destruct Hin as [Heq | []].
    injection Heq as _ Hu. subst u.
    unfold path_grammar.
    destruct (truthy (prop options "summoner")).
    + exists p. eexists.
      split; [exact Hp|]. split; [exact Hnamed|].
      split; [now apply short_codes_are_not_full_names|].
      split; [right; eexists; reflexivity|]. left. reflexivity.
    + destruct (truthy (prop options "tag") || truthy (prop options "guid")).
      * exists p.
        destruct (subpath_shape options) as [-> | [sp ->]]; eexists;
          (split; [exact Hp|]); (split; [exact Hnamed|]);
          (split; [now apply short_codes_are_not_full_names|]);
          (split; [right; eexists; reflexivity|]); right; left; reflexivity.
      * exists p, (subpath options).
        split; [exact Hp|]. split; [exact Hnamed|].
        split; [now apply short_codes_are_not_full_names|].
        split; [apply subpath_shape|]. right; right; reflexivity.
Qed.

Lemma constructPath_summoner_form_witness :
  exists p rest,
    In p PLATFORMS
    /\ (VString "Turkey" = VString (short p)
        \/ VString "Turkey" = VString (full p))
    /\ ~ In (short p) (map full PLATFORMS)
    /\ (rest = EmptyString \/ exists rest', rest = "/" ++ rest')
    /\ (ENDPOINT ++ "/player/tr/Faker/honor"
          = ENDPOINT ++ "/player/" ++ short p ++ rest
        \/ ENDPOINT ++ "/player/tr/Faker/honor"
          = ENDPOINT ++ "/team/" ++ short p ++ rest
        \/ ENDPOINT ++ "/player/tr/Faker/honor"
          = ENDPOINT ++ "/service-state/" ++ short p ++ rest).
Proof.
  destruct constructPath_summoner_form as [_ [_ H]].
  apply (H (VString "contact")
           [("platform", VString "Turkey"); ("summoner", VString "Faker");
            ("path", VString "honor")]
           (Invocable 0) "GET" (ENDPOINT ++ "/player/tr/Faker/honor")).
  simpl. left. reflexivity.
Defined.

(** C3. The team form: platform [euw], guid [abc] and sub-path [guid] give
    [/team/euw/guid/abc/leagues]; platform [euw], tag [abc] and sub-path
    [tag] give [/team/euw/tag/abc], without [/leagues]; these are the
    intents of [teemo.team.leagues] and [teemo.team]. *)
Theorem constructPath_team_form :
  (forall rs f,
      issued (constructPath rs [("platform", VString "euw");
                                ("guid", VString "abc");
                                ("path", VString "guid")] (Invocable f))
      = [("GET", ENDPOINT ++ "/team/euw/guid/abc/leagues")])
  /\ (forall rs f,
      issued (constructPath rs [("platform", VString "euw");
                                ("tag", VString "abc");
                                ("path", VString "tag")] (Invocable f))
      = [("GET", ENDPOINT ++ "/team/euw/tag/abc")])
  /\ (forall rs f,
      issued (teemo_team_leagues rs (VString "euw") (VString "abc")
                (Invocable f))
      = [("GET", ENDPOINT ++ "/team/euw/guid/abc/leagues")])
  /\ (forall rs f,
      issued (teemo_team rs (VString "euw") (VString "abc") (Invocable f))
      = [("GET", ENDPOINT ++ "/team/euw/tag/abc")]).
Proof. repeat split. Qed.

(** The team form of a resolved intent. *)
Lemma path_grammar_team (code : string) (options : object) :
  truthy (prop options "summoner") = false ->
  truthy (prop options "tag") || truthy (prop options "guid") = true ->
  path_grammar code options
  = "/team/" ++ code ++ subpath options ++ "/"
      ++ (if truthy (prop options "tag")
          then ToString (prop options "tag")
          else ToString (prop options "guid"))
      ++ (if truthy (prop options "guid") then "/leagues" else EmptyString).
Proof.
  intros Hs Ht. unfold path_grammar, or_else. rewrite Hs, Ht.
  now destruct (truthy (prop options "tag")).
Qed.

(** C8, as amended. In the team form the tag, when there is one, is the
    identifier spliced into the path, the guid otherwise; [/leagues] is
    appended exactly when the intent has a guid, whichever identifier was
    spliced. *)
Theorem constructPath_team_precedence (rs : value) (options : object)
  (f : nat) (code : string) :
  normalizePlatform (prop options "platform") = VString code ->
  truthy (prop options "summoner") = false ->
  truthy (prop options "tag") || truthy (prop options "guid") = true ->
  issued (constructPath rs options (Invocable f))
  = [("GET",
      ENDPOINT ++ "/team/" ++ code ++ subpath options ++ "/"
        ++ (if truthy (prop options "tag")
            then ToString (prop options "tag")
            else ToString (prop options "guid"))
        ++ (if truthy (prop options "guid") then "/leagues" else EmptyString))].
Proof.
  intros Hcode Hs Ht.
  rewrite (constructPath_resolved _ _ _ _ Hcode), issued_get.
  now rewrite path_grammar_team.
Qed.

Lemma constructPath_team_precedence_witness :
  issued (constructPath (VString "contact")
            [("platform", VString "Europe_West"); ("tag", VString "abc");
             ("guid", VString "xyz")] (Invocable 0))
  = [("GET", ENDPOINT ++ "/team/euw/abc/leagues")].
Proof.
  apply (constructPath_team_precedence (VString "contact")
           [("platform", VString "Europe_West"); ("tag", VString "abc");
            ("guid", VString "xyz")] 0 "euw"); reflexivity.
Defined.

(** C8, as claimed, fails: with both a tag and a guid the tag is spliced and
    [/leagues] is appended all the same. *)
Lemma constructPath_team_suffix_counterexample :
  issued (constructPath (VString "contact") tag_and_guid (Invocable 0))
  = [("GET", ENDPOINT ++ "/team/euw/tag/abc/leagues")]
  /\ team_path_by_identifier "euw" tag_and_guid = "/team/euw/tag/abc"
  /\ issued (constructPath (VString "contact") tag_and_guid (Invocable 0))
     <> [("GET", ENDPOINT ++ team_path_by_identifier "euw" tag_and_guid)].
Proof. repeat split. discriminate. Qed.

(** ** Public facade *)

Lemma module_exports_inv (rs : value) (log : list event) (t : Teemo) :
  module_exports rs = (log, Ok t) ->
  isString rs = true
  /\ log = []
  /\ forall op args cb,
       invoke t op args cb = constructPath rs (intent op args) cb.
Proof.
  unfold module_exports. destruct (isString rs); cbn [negb].
  - intros H. injection H as <- <-. repeat split.
    intros op args cb. now destruct op.
  - discriminate.
Qed.

Lemma intent_platform (op : operation) (args : list value) :
  prop (intent op args) "platform" = nth 0 args VUndefined.
Proof. now destruct op. Qed.

(** Construction without a string fails with [MissingConfig]; nothing has
    happened by then. *)
Lemma module_exports_MissingConfig (rs : value) :
  isString rs = false -> module_exports rs = ([], Throw MissingConfig).
Proof. unfold module_exports. now intros ->. Qed.

(** With a platform that resolves, an operation called without an invocable
    callback fails with [MissingCallback]; nothing has happened by then. *)
Lemma invoke_MissingCallback (rs : value) (t : Teemo) (op : operation)
  (args : list value) (v : value) (code : string) :
  module_exports rs = ([], Ok t) ->
  normalizePlatform (nth 0 args VUndefined) = VString code ->
  invoke t op args (NotInvocable v) = ([], Throw MissingCallback).
Proof.
  intros Ht Hcode. apply module_exports_inv in Ht.
  destruct Ht as [_ [_ Hinvoke]]. rewrite Hinvoke.
  rewrite (constructPath_resolved _ _ _ code)
    by (now rewrite intent_platform).
  reflexivity.
Qed.

(** With a platform that does not resolve, the same call fails while
    invoking what was passed for the callback. *)
Lemma invoke_unresolved_not_invocable (rs : value) (t : Teemo)
  (op : operation) (args : list value) (v : value) :
  module_exports rs = ([], Ok t) ->
  normalizePlatform (nth 0 args VUndefined) = VNull ->
  invoke t op args (NotInvocable v) = ([], Throw TypeError).
Proof.
  intros Ht Hnull. apply module_exports_inv in Ht.
  destruct Ht as [_ [_ Hinvoke]]. rewrite Hinvoke.
  unfold constructPath. rewrite intent_platform, Hnull. reflexivity.
Qed.

(** C7, at the input where the code departs from it:
    [require('resteemo')('contact').player('xx', 'Faker')], a platform that
    does not resolve and no callback.  The call fails synchronously and
    nothing is requested, but the exception is the engine's TypeError for
    calling [undefined], not [MissingCallback]. *)
Theorem missing_callback_unresolved_platform :
  exists t,
    module_exports (VString "contact") = ([], Ok t)
    /\ invoke t OpPlayer [VString "xx"; VString "Faker"]
         (NotInvocable VUndefined) = ([], Throw TypeError)
    /\ TypeError <> MissingCallback
    /\ invoke t OpPlayer [VString "na"; VString "Faker"]
         (NotInvocable VUndefined) = ([], Throw MissingCallback).
Proof.
  eexists. split; [reflexivity|]. repeat split. discriminate.
Qed.

(** C6. When the platform of a request intent does not resolve, the path
    builder hands the [InvalidPlatform] error to the callback, once, and
    returns; whatever was passed for the callback and whatever the HTTP
    layer would do, no request is made. *)
Theorem constructPath_InvalidPlatform (rs : value) (options : object) :
  normalizePlatform (prop options "platform") = VNull ->
  (forall f, constructPath rs options (Invocable f)
             = ([Invoked f (Some InvalidPlatform) None], Ok tt))
  /\ (forall f t, history t (constructPath rs options (Invocable f))
                  = [Invoked f (Some InvalidPlatform) None])
  /\ (forall cb t, requests (history t (constructPath rs options cb)) = []).
Proof.
  intros Hnull. unfold constructPath. rewrite Hnull. cbn [isNull].
  repeat split. intros cb t. now destruct cb.
Qed.

Lemma constructPath_InvalidPlatform_witness :
  constructPath (VString "contact")
    [("platform", VString "kr"); ("summoner", VString "Faker")] (Invocable 7)
  = ([Invoked 7 (Some (Error "node-resteemo - invalid platform")) None], Ok tt).
Proof.
  apply (constructPath_InvalidPlatform (VString "contact")
           [("platform", VString "kr"); ("summoner", VString "Faker")]).
  reflexivity.
Defined.

Lemma path_grammar_service_state (code : string) (options : object) :
  truthy (prop options "summoner") = false ->
  truthy (prop options "tag") = false ->
  truthy (prop options "guid") = false ->
  path_grammar code options = "/service-state/" ++ code ++ subpath options.
Proof. intros Hs Ht Hg. unfold path_grammar. now rewrite Hs, Ht, Hg. Qed.

(** C10. The discriminators are tested for truthiness.  With a platform
    that resolves to [code]: [teemo.player] with a falsy summoner, the empty
    string among them, requests [/service-state/code]; [teemo.team] with a
    falsy tag requests [/service-state/code/tag]; every operation whose
    second argument is falsy requests the service-state path with its
    sub-path; and [teemo.player.rankedStats] with a falsy season, 0 among
    them, appends nothing after [ranked_stats/season/]. *)
Theorem falsy_discriminators (rs : value) (t : Teemo) (platform : value)
  (code : string) (f : nat) :
  module_exports rs = ([], Ok t) ->
  normalizePlatform platform = VString code ->
  (forall summoner, truthy summoner = false ->
      issued (player t platform summoner (Invocable f))
      = [("GET", ENDPOINT ++ "/service-state/" ++ code)])
  /\ (forall tag, truthy tag = false ->
      issued (team t platform tag (Invocable f))
      = [("GET", ENDPOINT ++ "/service-state/" ++ code ++ "/tag")])
  /\ (forall op second rest, truthy second = false ->
      issued (invoke t op (platform :: second :: rest) (Invocable f))
      = [("GET", ENDPOINT ++ "/service-state/" ++ code
                   ++ subpath (intent op (platform :: second :: rest)))])
  /\ (forall summoner season,
      truthy summoner = true -> truthy season = false ->
      issued (player_rankedStats t platform summoner season (Invocable f))
      = [("GET", ENDPOINT ++ "/player/" ++ code ++ "/" ++ ToString summoner
                   ++ "/ranked_stats/season/")]).
Proof.
  intros Ht Hcode. apply module_exports_inv in Ht.
  destruct Ht as [_ [_ Hinvoke]].
  assert (Hgen : forall op second rest, truthy second = false ->
      issued (invoke t op (platform :: second :: rest) (Invocable f))
      = [("GET", ENDPOINT ++ "/service-state/" ++ code
                   ++ subpath (intent op (platform :: second :: rest)))]).
  { intros op second rest Hfalsy. rewrite Hinvoke.
    rewrite (constructPath_resolved _ _ _ code)
      by (now rewrite intent_platform).
    rewrite issued_get, path_grammar_service_state; [reflexivity | | |];
      destruct op; simpl; auto. }
  split; [|split; [|split]].
  - intros summoner Hfalsy.
    specialize (Hgen OpPlayer summoner [] Hfalsy).
    cbn [invoke nth] in Hgen. rewrite Hgen.
    change (subpath (intent OpPlayer [platform; summoner])) with EmptyString.
    now rewrite append_nil_r.
  - intros tag Hfalsy.
    specialize (Hgen OpTeam tag [] Hfalsy).
    cbn [invoke nth] in Hgen. now rewrite Hgen.
  - exact Hgen.
  - intros summoner season Htruthy Hfalsy.
    specialize (Hinvoke OpRankedStats [platform; summoner; season]
                        (Invocable f)).
    cbn [invoke nth] in Hinvoke. rewrite Hinvoke.
    rewrite (constructPath_resolved _ _ _ code) by exact Hcode.
    rewrite issued_get. unfold path_grammar.
    change (prop (intent OpRankedStats [platform; summoner; season]) "summoner")
      with summoner.
    change (prop (intent OpRankedStats [platform; summoner; season]) "season")
      with season.
    change (subpath (intent OpRankedStats [platform; summoner; season]))
      with "/ranked_stats/season/".
    rewrite Htruthy. unfold or_else. rewrite Hfalsy. cbn [ToString].
    now rewrite append_nil_r.
Qed.

Lemma falsy_discriminators_witness :
  match module_exports (VString "contact") with
  | (_, Ok t) =>
      issued (player t (VString "Brasil") (VString EmptyString) (Invocable 0))
      = [("GET", ENDPOINT ++ "/service-state/br")]
      /\ issued (team t (VString "Brasil") (VString EmptyString) (Invocable 0))
         = [("GET", ENDPOINT ++ "/service-state/br/tag")]
      /\ issued (player_rankedStats t (VString "Brasil") (VString "Faker")
                   (VNumber 0) (Invocable 0))
         = [("GET", ENDPOINT ++ "/player/br/Faker/ranked_stats/season/")]
  | (_, Throw _) => False
  end.
Proof.
  destruct (module_exports (VString "contact")) as [log [t|e]] eqn:Ht.
  - destruct (module_exports_inv _ _ _ Ht) as [_ [-> _]].
    destruct (falsy_discriminators (VString "contact") t (VString "Brasil")
                "br" 0 Ht eq_refl) as [Hplayer [Hteam [_ Hranked]]].
    split; [apply Hplayer; reflexivity|].
    split; [apply Hteam; reflexivity|].
    apply (Hranked (VString "Faker") (VNumber 0)); reflexivity.
  - discriminate.
Defined.

(** ** Response validator *)

Lemma bind_lift_Ok {A B} (a : A) (k : A -> M B) : bind (lift (Ok a)) k = k a.
Proof. unfold bind, lift. now destruct (k a). Qed.

Lemma bind_lift_Throw {A B} (e : error) (k : A -> M B) :
  bind (lift (Throw e)) k = ([], Throw e).
Proof. reflexivity. Qed.

Lemma get_property_field (v : option json) (key : string) :
  nullish v = false -> get_property v (units key) = Ok (field v key).
Proof. destruct v as [[]|]; simpl; intros H; (reflexivity || discriminate). Qed.

Lemma get_property_nullish (v : option json) (key : jstring) :
  nullish v = true -> get_property v key = Throw TypeError.
Proof. destruct v as [[]|]; simpl; intros H; (reflexivity || discriminate). Qed.

(** What the ['end'] listener does with a body that parses. *)
Lemma on_end_parsed (cb : callback) (body : jstring) (r : json) :
  JSON.parse body = Some r ->
  on_end cb body
  = if nullish (Some r) then ([], Throw TypeError)
    else if negb (json_truthy (field (Some r) "success")) then
      call cb (Some (brandError "api failed")) None
    else if nullish (field (Some r) "data") then ([], Throw TypeError)
    else
      match field (field (Some r) "data") "_success" with
      | Some s =>
          if negb (json_truthy (Some s)) then
            call cb (Some (brandError "api failed at second success check"))
                 None
          else call cb None (Some r)
      | None => call cb None (Some r)
      end.
Proof.
  intros Hparse. unfold on_end. rewrite Hparse.
  destruct (nullish (Some r)) eqn:Hr.
  - now rewrite (get_property_nullish _ _ Hr), bind_lift_Throw.
  - rewrite !(get_property_field _ _ Hr), !bind_lift_Ok.
    destruct (negb (json_truthy (field (Some r) "success"))); [reflexivity|].
    destruct (nullish (field (Some r) "data")) eqn:Hd.
    + now rewrite (get_property_nullish _ _ Hd), bind_lift_Throw.
    + rewrite !(get_property_field _ _ Hd), !bind_lift_Ok.
      now destruct (field (field (Some r) "data") "_success").
Qed.

Lemma on_end_unparseable (cb : callback) (body : jstring) :
  JSON.parse body = None ->
  on_end cb body = call cb (Some InvalidJSON) None.
Proof. intros Hparse. unfold on_end. now rewrite Hparse. Qed.

(** The ['data'] listener accumulates the chunks in their order. *)
Lemma accumulate_chunks (chunks : list jstring) (acc : jstring) :
  fold_left (fun response chunk => (response ++ chunk)%list) chunks acc
  = (acc ++ List.concat chunks)%list.
Proof.
  revert acc. induction chunks as [|c chunks IH]; intros acc; simpl.
  - now rewrite app_nil_r.
  - now rewrite IH, app_assoc.
Qed.

Lemma on_response_body (cb : callback) (chunks : list jstring) :
  on_response cb (Response chunks) = on_end cb (List.concat chunks).
Proof. unfold on_response. now rewrite accumulate_chunks. Qed.

(** On a body of the required shape the code and the specification's
    validator agree. *)
Lemma on_end_validates (f : nat) (body : jstring) :
  required_shape body = true ->
  delivered f (on_end (Invocable f) body) (validate body).
Proof.
  unfold required_shape, validate. intros Hshape.
  destruct (JSON.parse body) as [r|] eqn:Hparse.
  - rewrite (on_end_parsed _ _ _ Hparse).
    apply andb_prop in Hshape. destruct Hshape as [Hr Hd].
    apply negb_true_iff in Hr. rewrite Hr.
    destruct (negb (json_truthy (field (Some r) "success"))) eqn:Hs.
    + exists (brandError "api failed"). split; [now left | reflexivity].
    + cbn [orb] in Hd.
      apply negb_true_iff in Hd. rewrite Hd.
      destruct (field (field (Some r) "data") "_success") as [s|];
        [|reflexivity].
      destruct (negb (json_truthy (Some s))); [|reflexivity].
      exists (brandError "api failed at second success check").
      split; [now right | reflexivity].
  - now rewrite (on_end_unparseable _ _ Hparse).
Qed.

(** On any other body the listener ends in a TypeError before it reaches
    the callback. *)
Lemma on_end_faults (cb : callback) (body : jstring) :
  required_shape body = false -> on_end cb body = ([], Throw TypeError).
Proof.
  unfold required_shape. intros Hshape.
  destruct (JSON.parse body) as [r|] eqn:Hparse; [|discriminate].
  rewrite (on_end_parsed _ _ _ Hparse).
  destruct (nullish (Some r)); [reflexivity|].
  destruct (negb (json_truthy (field (Some r) "success"))); [discriminate|].
  destruct (nullish (field (Some r) "data")); [reflexivity | discriminate].
Qed.

Lemma responseHandler_validates_body (f : nat) (chunks : list jstring) :
  required_shape (List.concat chunks) = true ->
  delivered f (on_response (Invocable f) (Response chunks))
              (validate (List.concat chunks)).
Proof.
  intros Hshape. rewrite on_response_body. now apply on_end_validates.
Qed.

(** C1, as amended. For every response body, accumulated from its chunks,
    that does not parse, or that parses to a value other than [null] whose
    [data] is neither absent nor [null] when its [success] is truthy: the
    callback is told, once, [InvalidJSON] if the body does not parse; else
    [ApiFailure] if the top-level [success] is falsy; else [ApiFailure] if
    [data._success] is present and falsy; otherwise the parsed structure,
    unchanged; the checks are made in that order. *)
Theorem responseHandler_validates (f : nat) (chunks : list jstring) :
  required_shape (List.concat chunks) = true ->
  delivered f (on_response (Invocable f) (Response chunks))
              (validate (List.concat chunks)).
Proof. exact (responseHandler_validates_body f chunks). Qed.

Lemma responseHandler_validates_witness :
  delivered 0
    (on_response (Invocable 0)
       (Response [body "{'success': true, 'data': {'_succ";
                  body "ess': true, 'x': 1}}"]))
    (Unchanged
       (JObject [(units "success", JBool true);
                 (units "data",
                  JObject [(units "_success", JBool true);
                           (units "x", JNumber false 1 0)])])).
Proof.
  exact (responseHandler_validates 0
           [body "{'success': true, 'data': {'_succ";
            body "ess': true, 'x': 1}}"] eq_refl).
Defined.

(** The examples of the specification. *)
Example validate_examples :
  on_end (Invocable 0) (body "{'success': false}")
  = ([Invoked 0 (Some (Error "node-resteemo - api failed")) None], Ok tt)
  /\ on_end (Invocable 0)
       (body "{'success': true, 'data': {'_success': false}}")
     = ([Invoked 0
           (Some (Error "node-resteemo - api failed at second success check"))
           None], Ok tt)
  /\ on_end (Invocable 0) (body "<html>Bad Gateway</html>")
     = ([Invoked 0 (Some (Error "node-resteemo - invalid json response")) None],
        Ok tt).
Proof. repeat split. Qed.

(** C1, as claimed for every body, fails: [{"success": true}] parses, its
    [success] is truthy and there is no [data._success], so the parsed
    structure should come back; the read of [data._success] throws
    instead and the callback is never reached. *)
Lemma responseHandler_validates_counterexample :
  validate (body "{'success': true}")
  = Unchanged (JObject [(units "success", JBool true)])
  /\ on_response (Invocable 0) (Response [body "{'success': true}"])
     = ([], Throw TypeError)
  /\ ~ delivered 0
         (on_response (Invocable 0) (Response [body "{'success': true}"]))
         (validate (body "{'success': true}")).
Proof.
  split; [reflexivity|]. split; [reflexivity|].
  change (validate (body "{'success': true}"))
    with (Unchanged (JObject [(units "success", JBool true)])).
  change (on_response (Invocable 0) (Response [body "{'success': true}"]))
    with (@throw unit TypeError).
  simpl. discriminate.
Qed.

(** C9, as amended. The validator faults, with a TypeError before it
    reaches the callback, on exactly the bodies that are not of the required
    shape.  For a body that parses and whose top-level [success] is truthy,
    the read of [data._success], outside the guard of the parse, throws
    exactly when [data] is absent or [null]; a [data] that is a number, a
    string, a boolean or an array reads as [undefined] and does not throw.
    When it throws, the exception leaves the listener and the callback is
    not invoked, with an error or with a result. *)
Theorem responseHandler_faults (f : nat) (chunks : list jstring) :
  (required_shape (List.concat chunks) = false
   <-> on_response (Invocable f) (Response chunks) = ([], Throw TypeError))
  /\ (forall r,
      JSON.parse (List.concat chunks) = Some r ->
      json_truthy (field (Some r) "success") = true ->
      (nullish (field (Some r) "data") = true
       <-> on_response (Invocable f) (Response chunks) = ([], Throw TypeError))
      /\ (nullish (field (Some r) "data") = true ->
          turn (on_response (Invocable f) (Response chunks))
          = [Unhandled TypeError]
          /\ invocations (turn (on_response (Invocable f) (Response chunks)))
             = [])).
Proof.
  rewrite on_response_body. split.
  - split; [apply on_end_faults|].
    intros Hthrow.
    destruct (required_shape (List.concat chunks)) eqn:Hshape; [|reflexivity].
    pose proof (on_end_validates f _ Hshape) as Hd. rewrite Hthrow in Hd.
    destruct (validate (List.concat chunks)); cbn [delivered] in Hd;
      [discriminate | destruct Hd as [e [_ Hd]]; discriminate | discriminate].
  - intros r Hparse Hsuccess.
    rewrite (on_end_parsed _ _ _ Hparse), Hsuccess.
    assert (Hr : nullish (Some r) = false).
    { destruct r; try reflexivity. discriminate. }
    rewrite Hr. cbn [negb].
    destruct (nullish (field (Some r) "data")).
    + repeat split.
    + split; [|discriminate]. split; [discriminate|].
      destruct (field (field (Some r) "data") "_success") as [s|];
        [destruct (negb (json_truthy (Some s)))|]; discriminate.
Qed.

Lemma responseHandler_faults_witness :
  turn (on_response (Invocable 0)
          (Response [body "{'success': 1, 'data': null}"]))
  = [Unhandled TypeError].
Proof.
  destruct (responseHandler_faults 0 [body "{'success': 1, 'data': null}"])
    as [_ Hdata].
  apply (Hdata (JObject [(units "success", JNumber false 1 0);
                         (units "data", JNull)])); reflexivity.
Defined.

(** C9, as claimed for a [data] that is not an object, fails: with
    [{"success": true, "data": 5}] the read of [data._success] gives
    [undefined] and the callback receives the parsed structure. *)
Lemma responseHandler_faults_counterexample :
  JSON.parse (body "{'success': true, 'data': 5}")
  = Some (JObject [(units "success", JBool true);
                   (units "data", JNumber false 5 0)])
  /\ is_object (Some (JNumber false 5 0)) = false
  /\ on_response (Invocable 0) (Response [body "{'success': true, 'data': 5}"])
     = ([Invoked 0 None
           (Some (JObject [(units "success", JBool true);
                           (units "data", JNumber false 5 0)]))], Ok tt)
  /\ on_response (Invocable 0) (Response [body "{'success': true, 'data': 5}"])
     <> ([], Throw TypeError).
Proof. repeat split. discriminate. Qed.

(** ** Request dispatcher *)





Lemma invocations_app (a b : list event) :
  invocations (a ++ b)%list = (invocations a ++ invocations b)%list.
Proof. unfold invocations. apply flat_map_app. Qed.




(** ** More on the platform normaliser *)

(** X1. The normaliser answers the short code [code] exactly for the two
    spellings of the table entry that has this short code: the short code
    itself and the entry's full name.  Any other value, a string or not,
    does not resolve to [code]. *)
Theorem normalizePlatform_resolves_iff (v : value) (code : string) :
  normalizePlatform v = VString code
  <-> exists p, In p PLATFORMS
                /\ short p = code
                /\ (v = VString (short p) \/ v = VString (full p)).
Proof.
  split.
  - intros Hcode.
    destruct (normalizePlatform_cases v) as [Hnull | [p [Hp [Hshort Hv]]]].
    + rewrite Hnull in Hcode. discriminate.
    + rewrite Hshort in Hcode. injection Hcode as Hcode.
      exists p. repeat split; assumption.
  - intros [p [Hp [<- [-> | ->]]]];
      each_platform Hp ltac:(reflexivity).
Qed.

Lemma normalizePlatform_resolves_iff_witness :
  normalizePlatform (VString "Latin_America_South") = VString "las"
  /\ exists p, In p PLATFORMS
               /\ short p = "eun"
               /\ (VString "eun" = VString (short p)
                   \/ VString "eun" = VString (full p)).
Proof.
  split.
  - apply (normalizePlatform_resolves_iff (VString "Latin_America_South")
             "las").
    exists {| short := "las"; full := "Latin_America_South" |}.
    simpl. intuition.
  - apply (normalizePlatform_resolves_iff (VString "eun") "eun"). reflexivity.
Defined.

(** X2. Normalising twice is normalising once: what the normaliser answers,
    a short code or [null], it maps to itself. *)
Theorem normalizePlatform_idempotent (v : value) :
  normalizePlatform (normalizePlatform v) = normalizePlatform v.
Proof.
  destruct (normalizePlatform_cases v) as [-> | [p [Hp [-> _]]]].
  - reflexivity.
  - each_platform Hp ltac:(reflexivity).
Qed.

(** X3. Every operation treats the two spellings of a platform alike: a
    call with the full name of a table entry does what the same call with
    the entry's short code does, whatever the other arguments and the
    callback are. *)
Theorem invoke_full_name_as_short_code (rs : value) (t : Teemo)
  (p : platform) (op : operation) (rest : list value) (cb : callback) :
  module_exports rs = ([], Ok t) ->
  In p PLATFORMS ->
  invoke t op (VString (full p) :: rest) cb
  = invoke t op (VString (short p) :: rest) cb.
Proof.
  intros Ht Hp. apply module_exports_inv in Ht.
  destruct Ht as [_ [_ Hinvoke]]. rewrite !Hinvoke.
  each_platform Hp ltac:(destruct op; reflexivity).
Qed.

Lemma invoke_full_name_as_short_code_witness :
  match module_exports (VString "contact") with
  | (_, Ok t) =>
      invoke t OpRunes [VString "Europe_West"; VString "Faker"] (Invocable 0)
      = invoke t OpRunes [VString "euw"; VString "Faker"] (Invocable 0)
  | (_, Throw _) => False
  end.
Proof.
  destruct (module_exports (VString "contact")) as [log [t|e]] eqn:Ht.
  - destruct (module_exports_inv _ _ _ Ht) as [_ [-> _]].
    apply (invoke_full_name_as_short_code (VString "contact") t
             {| short := "euw"; full := "Europe_West" |} OpRunes
             [VString "Faker"] (Invocable 0) Ht).
    simpl. tauto.
  - discriminate.
Defined.

(** ** More on the path builder and the facade *)

Lemma constructPath_unresolved (rs : value) (options : object)
  (cb : callback) :
  normalizePlatform (prop options "platform") = VNull ->
  constructPath rs options cb = call cb (Some InvalidPlatform) None.
Proof. intros Hnull. unfold constructPath. now rewrite Hnull. Qed.

(** The path builder either reports the platform or performs one GET. *)
Lemma constructPath_cases (rs : value) (options : object) (cb : callback) :
  constructPath rs options cb = call cb (Some InvalidPlatform) None
  \/ exists path, constructPath rs options cb = get rs path cb.
Proof.
  destruct (normalizePlatform_cases (prop options "platform"))
    as [Hnull | [p [_ [Hcode _]]]].
  - left. now apply constructPath_unresolved.
  - right. exists (path_grammar (short p) options).
    exact (constructPath_resolved _ _ _ _ Hcode).
Qed.

(** X4. Whatever operation is called and with whatever arguments, a request
    that it makes is a GET of a URI under the API's endpoint, with the
    headers [Accept: application/json] and [User-Agent] set to the string
    the client was constructed with, and with one listener, for
    ['response'], bound to the caller's callback. *)
Theorem invoke_request_stamped (rs : value) (t : Teemo) (op : operation)
  (args : list value) (cb : callback) (req : request) :
  module_exports rs = ([], Ok t) ->
  In req (requests (fst (invoke t op args cb))) ->
  isString rs = true
  /\ method (options req) = "GET"
  /\ (exists path, uri (options req) = ENDPOINT ++ path)
  /\ headers (options req) = [("Accept", VString "application/json");
                              ("User-Agent", rs)]
  /\ listeners req = [("response", OnResponse cb)].
Proof.
  intros Ht Hreq. apply module_exports_inv in Ht.
  destruct Ht as [Hrs [_ Hinvoke]]. rewrite Hinvoke in Hreq.
  split; [exact Hrs|].
  destruct (constructPath_cases rs (intent op args) cb) as [E | [path E]];
    rewrite E in Hreq; destruct cb as [f | v]; simpl in Hreq;
    try contradiction.
  destruct Hreq as [<- | []]. simpl.
  split; [reflexivity|]. split; [now exists path|]. split; reflexivity.
Qed.

Lemma invoke_request_stamped_witness :
  match module_exports (VString "me@example.org") with
  | (_, Ok t) =>
      forall req,
        In req (requests (fst (invoke t OpFreeWeek [VString "Turkey"]
                                 (Invocable 3)))) ->
        isString (VString "me@example.org") = true
        /\ method (options req) = "GET"
        /\ (exists path, uri (options req) = ENDPOINT ++ path)
        /\ headers (options req) = [("Accept", VString "application/json");
                                    ("User-Agent", VString "me@example.org")]
        /\ listeners req = [("response", OnResponse (Invocable 3))]
  | (_, Throw _) => False
  end.
Proof.
  destruct (module_exports (VString "me@example.org")) as [log [t|e]] eqn:Ht.
  - destruct (module_exports_inv _ _ _ Ht) as [_ [-> _]].
    intros req.
    apply (invoke_request_stamped (VString "me@example.org") t OpFreeWeek
             [VString "Turkey"] (Invocable 3) req Ht).
  - discriminate.
Defined.

(** X5. What a call of an operation does before it returns.  With a
    function for callback it does exactly one thing.  Either it invokes the
    callback, once, with the [InvalidPlatform] error, and comes to what that
    invocation comes to: it returns when the callback returns and throws
    what the callback throws.  Or it makes one request and returns.  With
    anything else for callback it throws before it has done anything. *)
Theorem invoke_synchronous_outcome (rs : value) (t : Teemo) (op : operation)
  (args : list value) :
  module_exports rs = ([], Ok t) ->
  (forall f completion,
      invoke t op args (Callable f completion)
      = ([Invoked f (Some InvalidPlatform) None],
         completion (Some InvalidPlatform) None)
      \/ exists req,
          invoke t op args (Callable f completion) = ([Requested req], Ok tt))
  /\ (forall v,
      invoke t op args (NotInvocable v) = ([], Throw TypeError)
      \/ invoke t op args (NotInvocable v) = ([], Throw MissingCallback)).
Proof.
  intros Ht. apply module_exports_inv in Ht.
  destruct Ht as [_ [_ Hinvoke]]. split.
  - intros f completion. rewrite Hinvoke.
    destruct (constructPath_cases rs (intent op args) (Callable f completion))
      as [E | [path E]]; rewrite E.
    + now left.
    + right. eexists. reflexivity.
  - intros v. rewrite Hinvoke.
    destruct (constructPath_cases rs (intent op args) (NotInvocable v))
      as [E | [path E]]; rewrite E; [now left | now right].
Qed.

Lemma invoke_synchronous_outcome_witness :
  match module_exports (VString "contact") with
  | (_, Ok t) =>
      invoke t OpHonor [VNull; VString "Faker"]
        (Callable 0 (fun err _ => match err with
                                  | Some e => Throw e
                                  | None => Ok tt
                                  end))
      = ([Invoked 0 (Some InvalidPlatform) None], Throw InvalidPlatform)
      /\ (invoke t OpHonor [VNull; VString "Faker"] (NotInvocable VUndefined)
          = ([], Throw TypeError)
          \/ invoke t OpHonor [VNull; VString "Faker"]
               (NotInvocable VUndefined)
             = ([], Throw MissingCallback))
  | (_, Throw _) => False
  end.
Proof.
  destruct (module_exports (VString "contact")) as [log [t|e]] eqn:Ht.
  - destruct (module_exports_inv _ _ _ Ht) as [_ [-> Hinvoke]].
    destruct (invoke_synchronous_outcome (VString "contact") t OpHonor
                [VNull; VString "Faker"] Ht) as [Hfunction Hother].
    split; [|apply Hother].
    destruct (Hfunction 0 (fun err _ => match err with
                                        | Some e => Throw e
                                        | None => Ok tt
                                        end)) as [E | [req E]].
    + exact E.
    + rewrite Hinvoke in E. discriminate.
  - discriminate.
Defined.

(** Reading the fields of an object literal. *)
Ltac read_props :=
  cbn [intent nth prop String.eqb Ascii.eqb Bool.eqb];
  change (truthy VUndefined) with false;
  change (isUndefined VUndefined) with true;
  cbn [orb andb].

Lemma or_else_truthy (a b : value) : truthy a = true -> or_else a b = a.
Proof. unfold or_else. now intros ->. Qed.

Lemma or_else_falsy (a b : value) : truthy a = false -> or_else a b = b.
Proof. unfold or_else. now intros ->. Qed.

Lemma issued_invoke_resolved (rs : value) (t : Teemo) (op : operation)
  (args : list value) (code : string) (f : nat) :
  module_exports rs = ([], Ok t) ->
  normalizePlatform (nth 0 args VUndefined) = VString code ->
  issued (invoke t op args (Invocable f))
  = [("GET", ENDPOINT ++ path_grammar code (intent op args))].
Proof.
  intros Ht Hcode. apply module_exports_inv in Ht.
  destruct Ht as [_ [_ Hinvoke]]. rewrite Hinvoke.
  rewrite (constructPath_resolved _ _ _ code)
    by (now rewrite intent_platform).
  apply issued_get.
Qed.

(** X6. The operations that look a summoner up.  With a platform that
    resolves to [code] and a truthy summoner, [teemo.player] requests
    [/player/code/summoner], and [ingame], [recentGames], [influencePoints],
    [runes], [mastery], [leagues], [honor] and [teams] request the same path
    followed by [/ingame], [/recent_games], [/influence_points], [/runes],
    [/mastery], [/leagues], [/honor] and [/teams]; the summoner is spliced as
    its string conversion, and arguments after it are ignored. *)
Theorem summoner_operations_paths (rs : value) (t : Teemo)
  (platform summoner : value) (code : string) (f : nat) :
  module_exports rs = ([], Ok t) ->
  normalizePlatform platform = VString code ->
  truthy summoner = true ->
  (forall rest,
      issued (invoke t OpPlayer (platform :: summoner :: rest) (Invocable f))
      = [("GET", ENDPOINT ++ "/player/" ++ code ++ "/" ++ ToString summoner)])
  /\ (forall op sub rest,
      In (op, sub) [(OpIngame, "ingame"); (OpRecentGames, "recent_games");
                    (OpInfluencePoints, "influence_points");
                    (OpRunes, "runes"); (OpMastery, "mastery");
                    (OpLeagues, "leagues"); (OpHonor, "honor");
                    (OpTeams, "teams")] ->
      issued (invoke t op (platform :: summoner :: rest) (Invocable f))
      = [("GET", ENDPOINT ++ "/player/" ++ code ++ "/" ++ ToString summoner
                   ++ "/" ++ sub)]).
Proof.
  intros Ht Hcode Htruthy. split.
  - intros rest.
    rewrite (issued_invoke_resolved _ _ _ _ code _ Ht) by exact Hcode.
    unfold path_grammar, subpath. read_props. rewrite Htruthy.
    rewrite or_else_falsy by reflexivity. cbn [ToString].
    now rewrite !append_nil_r.
  - intros op sub rest Hin.
    rewrite (issued_invoke_resolved _ _ _ _ code _ Ht) by exact Hcode.
    simpl in Hin.
    repeat (destruct Hin as [Hin | Hin];
            [injection Hin as <- <-; unfold path_grammar, subpath;
             read_props; rewrite Htruthy;
             rewrite or_else_falsy by reflexivity; cbn [ToString];
             now rewrite append_nil_r|]).
    contradiction.
Qed.

Lemma summoner_operations_paths_witness :
  match module_exports (VString "contact") with
  | (_, Ok t) =>
      issued (invoke t OpPlayer [VString "Russia"; VNumber 42] (Invocable 0))
      = [("GET", ENDPOINT ++ "/player/ru/42")]
      /\ issued (invoke t OpInfluencePoints
                   [VString "ru"; VString "Faker"; VString "ignored"]
                   (Invocable 0))
         = [("GET", ENDPOINT ++ "/player/ru/Faker/influence_points")]
  | (_, Throw _) => False
  end.
Proof.
  destruct (module_exports (VString "contact")) as [log [t|e]] eqn:Ht.
  - destruct (module_exports_inv _ _ _ Ht) as [_ [-> _]]. split.
    + destruct (summoner_operations_paths (VString "contact") t
                  (VString "Russia") (VNumber 42) "ru" 0 Ht eq_refl eq_refl)
        as [Hplayer _].
      apply (Hplayer []).
    + destruct (summoner_operations_paths (VString "contact") t
                  (VString "ru") (VString "Faker") "ru" 0 Ht eq_refl eq_refl)
        as [_ Hsub].
      apply (Hsub OpInfluencePoints "influence_points" [VString "ignored"]).
      simpl. tauto.
  - discriminate.
Defined.

(** X7. [teemo.player.rankedStats] with a platform that resolves to [code],
    a truthy summoner and a truthy season requests
    [/player/code/summoner/ranked_stats/season/] followed by the string
    conversion of the season, a number or not. *)
Theorem rankedStats_path (rs : value) (t : Teemo)
  (platform summoner season : value) (code : string) (f : nat) :
  module_exports rs = ([], Ok t) ->
  normalizePlatform platform = VString code ->
  truthy summoner = true ->
  truthy season = true ->
  issued (player_rankedStats t platform summoner season (Invocable f))
  = [("GET", ENDPOINT ++ "/player/" ++ code ++ "/" ++ ToString summoner
               ++ "/ranked_stats/season/" ++ ToString season)].
Proof.
  intros Ht Hcode Hsummoner Hseason.
  change (player_rankedStats t platform summoner season (Invocable f))
    with (invoke t OpRankedStats [platform; summoner; season] (Invocable f)).
  rewrite (issued_invoke_resolved _ _ _ _ code _ Ht) by exact Hcode.
  unfold path_grammar, subpath. read_props. rewrite Hsummoner.
  now rewrite or_else_truthy by exact Hseason.
Qed.

Lemma rankedStats_path_witness :
  match module_exports (VString "contact") with
  | (_, Ok t) =>
      issued (player_rankedStats t (VString "North_America") (VString "Faker")
                (VNumber 3) (Invocable 0))
      = [("GET", ENDPOINT ++ "/player/na/Faker/ranked_stats/season/3")]
  | (_, Throw _) => False
  end.
Proof.
  destruct (module_exports (VString "contact")) as [log [t|e]] eqn:Ht.
  - destruct (module_exports_inv _ _ _ Ht) as [_ [-> _]].
    apply (rankedStats_path (VString "contact") t (VString "North_America")
             (VString "Faker") (VNumber 3) "na" 0 Ht); reflexivity.
  - discriminate.
Defined.

(** X8. The team operations.  With a platform that resolves to [code],
    [teemo.team] with a truthy tag requests [/team/code/tag/] followed by
    the tag, and [teemo.team.leagues] with a truthy guid requests
    [/team/code/guid/] followed by the guid and [/leagues]; the identifier
    is spliced as its string conversion. *)
Theorem team_operations_paths (rs : value) (t : Teemo)
  (platform identifier : value) (code : string) (f : nat) :
  module_exports rs = ([], Ok t) ->
  normalizePlatform platform = VString code ->
  truthy identifier = true ->
  issued (team t platform identifier (Invocable f))
  = [("GET", ENDPOINT ++ "/team/" ++ code ++ "/tag/" ++ ToString identifier)]
  /\ issued (team_leagues t platform identifier (Invocable f))
     = [("GET", ENDPOINT ++ "/team/" ++ code ++ "/guid/"
                  ++ ToString identifier ++ "/leagues")].
Proof.
  intros Ht Hcode Htruthy. split.
  - change (team t platform identifier (Invocable f))
      with (invoke t OpTeam [platform; identifier] (Invocable f)).
    rewrite (issued_invoke_resolved _ _ _ _ code _ Ht) by exact Hcode.
    unfold path_grammar, subpath. read_props. rewrite Htruthy. cbn [orb].
    rewrite or_else_truthy by exact Htruthy.
    now rewrite append_nil_r.
  - change (team_leagues t platform identifier (Invocable f))
      with (invoke t OpTeamLeagues [platform; identifier] (Invocable f)).
    rewrite (issued_invoke_resolved _ _ _ _ code _ Ht) by exact Hcode.
    unfold path_grammar, subpath. read_props. rewrite Htruthy.
    now rewrite or_else_falsy by reflexivity.
Qed.

Lemma team_operations_paths_witness :
  match module_exports (VString "contact") with
  | (_, Ok t) =>
      issued (team t (VString "Latin_America_North") (VString "TSM")
                (Invocable 0))
      = [("GET", ENDPOINT ++ "/team/lan/tag/TSM")]
      /\ issued (team_leagues t (VString "Latin_America_North") (VString "TSM")
                   (Invocable 0))
         = [("GET", ENDPOINT ++ "/team/lan/guid/TSM/leagues")]
  | (_, Throw _) => False
  end.
Proof.
  destruct (module_exports (VString "contact")) as [log [t|e]] eqn:Ht.
  - destruct (module_exports_inv _ _ _ Ht) as [_ [-> _]].
    apply (team_operations_paths (VString "contact") t
             (VString "Latin_America_North") (VString "TSM") "lan" 0 Ht);
      reflexivity.
  - discriminate.
Defined.

(** X9. [teemo.freeWeek] with a platform that resolves to [code] requests
    [/service-state/code/free-week]: its intent has no summoner, tag or
    guid, so it always takes the service-state form. *)
Theorem freeWeek_path (rs : value) (t : Teemo) (platform : value)
  (code : string) (f : nat) :
  module_exports rs = ([], Ok t) ->
  normalizePlatform platform = VString code ->
  issued (freeWeek t platform (Invocable f))
  = [("GET", ENDPOINT ++ "/service-state/" ++ code ++ "/free-week")].
Proof.
  intros Ht Hcode.
  change (freeWeek t platform (Invocable f))
    with (invoke t OpFreeWeek [platform] (Invocable f)).
  rewrite (issued_invoke_resolved _ _ _ _ code _ Ht) by exact Hcode.
  unfold path_grammar, subpath. now read_props.
Qed.

Lemma freeWeek_path_witness :
  match module_exports (VString "contact") with
  | (_, Ok t) =>
      issued (freeWeek t (VString "Brasil") (Invocable 0))
      = [("GET", ENDPOINT ++ "/service-state/br/free-week")]
  | (_, Throw _) => False
  end.
Proof.
  destruct (module_exports (VString "contact")) as [log [t|e]] eqn:Ht.
  - destruct (module_exports_inv _ _ _ Ht) as [_ [-> _]].
    apply (freeWeek_path (VString "contact") t (VString "Brasil") "br" 0 Ht).
    reflexivity.
  - discriminate.
Defined.

(** X10. In the path builder a truthy summoner decides the form: the tag
    and the guid of the intent are not read.  Two intents that agree on
    every field but [tag] and [guid] are handled alike when the summoner is
    truthy. *)
Theorem constructPath_summoner_precedence (rs : value)
  (options options' : object) (cb : callback) :
  (forall key, key <> "tag" -> key <> "guid" ->
               prop options key = prop options' key) ->
  truthy (prop options "summoner") = true ->
  constructPath rs options cb = constructPath rs options' cb.
Proof.
  intros Hagree Htruthy.
  assert (Hplatform : prop options "platform" = prop options' "platform")
    by (apply Hagree; discriminate).
  assert (Hsummoner : prop options "summoner" = prop options' "summoner")
    by (apply Hagree; discriminate).
  assert (Hpath : prop options "path" = prop options' "path")
    by (apply Hagree; discriminate).
  assert (Hseason : prop options "season" = prop options' "season")
    by (apply Hagree; discriminate).
  destruct (normalizePlatform_cases (prop options "platform"))
    as [Hnull | [p [_ [Hcode _]]]].
  - rewrite !constructPath_unresolved; congruence.
  - rewrite (constructPath_resolved _ options _ _ Hcode).
    rewrite Hplatform in Hcode.
    rewrite (constructPath_resolved _ options' _ _ Hcode).
    f_equal. unfold path_grammar, subpath.
    rewrite <- Hsummoner, <- Hpath, <- Hseason. now rewrite Htruthy.
Qed.

Lemma constructPath_summoner_precedence_witness :
  constructPath (VString "contact")
    [("platform", VString "na"); ("summoner", VString "Faker");
     ("tag", VString "TSM"); ("guid", VString "abc")] (Invocable 0)
  = constructPath (VString "contact")
      [("platform", VString "na"); ("summoner", VString "Faker")]
      (Invocable 0).
Proof.
  apply (constructPath_summoner_precedence (VString "contact")
           [("platform", VString "na"); ("summoner", VString "Faker");
            ("tag", VString "TSM"); ("guid", VString "abc")]
           [("platform", VString "na"); ("summoner", VString "Faker")]
           (Invocable 0)).
  - intros key Htag Hguid. cbn [prop].
    destruct ("platform" =? key); [reflexivity|].
    destruct ("summoner" =? key); [reflexivity|].
    destruct (String.eqb_spec "tag" key) as [E | _]; [now elim Htag|].
    destruct (String.eqb_spec "guid" key) as [E | _]; [now elim Hguid|].
    reflexivity.
  - reflexivity.
Defined.

(** ** More on the response validator *)

(** X11. Only the body counts, not the chunks it arrives in: two responses
    whose chunks concatenate to the same body are handled alike. *)
Theorem on_response_chunking (cb : callback) (chunks chunks' : list jstring) :
  List.concat chunks = List.concat chunks' ->
  on_response cb (Response chunks) = on_response cb (Response chunks').
Proof. intros Hbody. rewrite !on_response_body. now rewrite Hbody. Qed.

Lemma on_response_chunking_witness :
  on_response (Invocable 0)
    (Response [body "{'succ"; body "ess': tr"; []; body "ue, 'data': {}}"])
  = on_response (Invocable 0)
      (Response [body "{'success': true, 'data': {}}"]).
Proof.
  apply (on_response_chunking (Invocable 0)
           [body "{'succ"; body "ess': tr"; []; body "ue, 'data': {}}"]
           [body "{'success': true, 'data': {}}"]).
  reflexivity.
Defined.

Lemma field_not_object (r : json) (key : string) :
  (forall members, r <> JObject members) -> field (Some r) key = None.
Proof. intros Hr. destruct r; try reflexivity. now elim (Hr members). Qed.

(** X12. The first check comes before any look at [data].  A body that
    parses to something other than [null] and whose [success] is falsy, or
    that is no object at all (a number, a string, a boolean, an array), is
    answered with the error [api failed], whatever [data] is, absent and
    [null] included. *)
Theorem on_end_success_first (f : nat) (body : jstring) (r : json) :
  JSON.parse body = Some r ->
  r <> JNull ->
  json_truthy (field (Some r) "success") = false
  \/ (forall members, r <> JObject members) ->
  on_end (Invocable f) body
  = ([Invoked f (Some (Error "node-resteemo - api failed")) None], Ok tt).
Proof.
  intros Hparse Hnull Hfalsy.
  assert (Hs : json_truthy (field (Some r) "success") = false).
  { destruct Hfalsy as [H | H]; [exact H|].
    now rewrite (field_not_object _ _ H). }
  rewrite (on_end_parsed _ _ _ Hparse), Hs.
  destruct r; try reflexivity. now elim Hnull.
Qed.

Lemma on_end_success_first_witness :
  on_end (Invocable 0) (body "{'success': 0, 'data': null}")
  = ([Invoked 0 (Some (Error "node-resteemo - api failed")) None], Ok tt)
  /\ on_end (Invocable 0) (body "[1, 2]")
     = ([Invoked 0 (Some (Error "node-resteemo - api failed")) None], Ok tt).
Proof.
  split.
  - apply (on_end_success_first 0 (body "{'success': 0, 'data': null}")
             (JObject [(units "success", JNumber false 0 0);
                       (units "data", JNull)]));
      [reflexivity | discriminate | left; reflexivity].
  - apply (on_end_success_first 0 (body "[1, 2]")
             (JArray [JNumber false 1 0; JNumber false 2 0]));
      [reflexivity | discriminate | right; discriminate].
Defined.



(** X14. What a response tells.  When the validator hands a response to the
    callback there is no error beside it, the response is what the whole
    body parses to, its top-level [success] is truthy, its [data] is
    neither absent nor [null], and [data._success] is absent or truthy. *)
Theorem on_end_response_sound (f : nat) (body : jstring)
  (err : option error) (r : json) :
  on_end (Invocable f) body = ([Invoked f err (Some r)], Ok tt) ->
  err = None
  /\ JSON.parse body = Some r
  /\ json_truthy (field (Some r) "success") = true
  /\ nullish (field (Some r) "data") = false
  /\ (field (field (Some r) "data") "_success" = None
      \/ json_truthy (field (field (Some r) "data") "_success") = true).
Proof.
  destruct (JSON.parse body) as [r'|] eqn:Hparse.
  - rewrite (on_end_parsed _ _ _ Hparse).
    destruct (nullish (Some r')); [discriminate|].
    destruct (json_truthy (field (Some r') "success")) eqn:Hs; cbn [negb];
      [|discriminate].
    destruct (nullish (field (Some r') "data")) eqn:Hd; [discriminate|].
    destruct (field (field (Some r') "data") "_success") as [s|] eqn:H2.
    + destruct (json_truthy (Some s)) eqn:Hs2; cbn [negb]; [|discriminate].
      intros H. injection H as <- <-. rewrite H2. repeat split; auto.
    + intros H. injection H as <- <-. rewrite H2. repeat split; auto.
  - rewrite (on_end_unparseable _ _ Hparse). discriminate.
Qed.

Lemma on_end_response_sound_witness :
  JSON.parse (body "{'success': 'yes', 'data': [1]}")
  = Some (JObject [(units "success", JString (units "yes"));
                   (units "data", JArray [JNumber false 1 0])]).
Proof.
  apply (on_end_response_sound 0 (body "{'success': 'yes', 'data': [1]}") None
           (JObject [(units "success", JString (units "yes"));
                     (units "data", JArray [JNumber false 1 0])])).
  reflexivity.
Defined.

(** ** An operation from the call to the callback *)

(** The events of the ['end'] listener's turn: nothing but a TypeError, an
    error of the library for the callback, or the parsed response for the
    callback. *)
Lemma on_end_outcome (f : nat) (body : jstring) :
  turn (on_end (Invocable f) body) = [Unhandled TypeError]
  \/ (exists msg,
         turn (on_end (Invocable f) body)
         = [Invoked f (Some (brandError msg)) None])
  \/ (exists r, turn (on_end (Invocable f) body) = [Invoked f None (Some r)]).
Proof.
  destruct (required_shape body) eqn:Hshape.
  - pose proof (on_end_validates f body Hshape) as Hd.
    destruct (validate body) as [| |r]; cbn [delivered] in Hd.
    + right; left. rewrite Hd. now eexists.
    + right; left. destruct Hd as [e [[-> | ->] ->]]; now eexists.
    + right; right. rewrite Hd. now eexists.
  - left. now rewrite (on_end_faults _ _ Hshape).
Qed.

(** The turn of the ['end'] listener ends in a TypeError before the
    callback, or is one call of the callback: with an error of the library,
    or with the parsed response. *)
Lemma on_end_call_cases (cb : callback) (body : jstring) :
  turn (on_end cb body) = [Unhandled TypeError]
  \/ (exists msg,
         turn (on_end cb body) = turn (call cb (Some (brandError msg)) None))
  \/ (exists r, turn (on_end cb body) = turn (call cb None (Some r))).
Proof.
  destruct (JSON.parse body) as [r|] eqn:Hparse.
  - rewrite (on_end_parsed _ _ _ Hparse).
    destruct (nullish (Some r)); [now left|].
    destruct (negb (json_truthy (field (Some r) "success")));
      [right; left; now eexists|].
    destruct (nullish (field (Some r) "data")); [now left|].
    destruct (field (field (Some r) "data") "_success") as [s|];
      [destruct (negb (json_truthy (Some s)))|];
      (right; left; now eexists) || (right; right; now eexists).
  - rewrite (on_end_unparseable _ _ Hparse). right; left. now eexists.
Qed.

(** A call of a function is one invocation of it, whatever it comes to. *)
Lemma invocations_call (f : nat)
  (completion : option error -> option json -> result unit)
  (err : option error) (response : option json) :
  invocations (turn (call (Callable f completion) err response))
  = [(f, err, response)].
Proof.
  unfold call, bind, tell, lift, turn.
  destruct (completion err response); reflexivity.
Qed.

Lemma history_call (tr : transport) (f : nat)
  (completion : option error -> option json -> result unit)
  (err : option error) (response : option json) :
  invocations (history tr (call (Callable f completion) err response))
  = [(f, err, response)].
Proof.
  unfold call, bind, tell, lift, history.
  destruct (completion err response); reflexivity.
Qed.

Lemma history_get_callable (rs : value) (path : string) (f : nat)
  (completion : option error -> option json -> result unit)
  (tr : transport) :
  history tr (get rs path (Callable f completion))
  = (fst (get rs path (Callable f completion))
       ++ match tr with
          | Fails e => [Unhandled e]
          | Responds chunks =>
              turn (on_end (Callable f completion) (List.concat chunks))
          end)%list.
Proof.
  destruct tr as [e | chunks]; [reflexivity|].
  unfold get, prepareRequest, history, settle, emit.
  cbn [isFunction negb responseHandler on tell fst requests flat_map
       listeners filter String.eqb Ascii.eqb Bool.eqb app run_listeners
       apply options].
  rewrite on_response_body. unfold bind, ret.
  destruct (on_end (Callable f completion) (List.concat chunks))
    as [log [[]|e]]; cbn [turn app]; now rewrite ?app_nil_r.
Qed.

Lemma invocations_history_get_callable (rs : value) (path : string)
  (f : nat) (completion : option error -> option json -> result unit)
  (tr : transport) :
  invocations (history tr (get rs path (Callable f completion)))
  = match tr with
    | Fails e => []
    | Responds chunks =>
        invocations
          (turn (on_end (Callable f completion) (List.concat chunks)))
    end.
Proof.
  rewrite history_get_callable, invocations_app. now destruct tr.
Qed.



(** X15. Every invocation of a callback, in a call of any operation with
    any arguments and whatever the HTTP layer does, is an invocation of the
    function the caller passed, and carries either an error of the library,
    whose message starts with [node-resteemo - ], and no response, or no
    error and a response. *)
Theorem invoke_callback_convention (rs : value) (t : Teemo) (op : operation)
  (args : list value) (cb : callback) (tr : transport) (f : nat)
  (err : option error) (response : option json) :
  module_exports rs = ([], Ok t) ->
  In (f, err, response) (invocations (history tr (invoke t op args cb))) ->
  (exists completion, cb = Callable f completion)
  /\ ((exists msg, err = Some (Error ("node-resteemo - " ++ msg))
                   /\ response = None)
      \/ (err = None /\ exists r, response = Some r)).
Proof.
  intros Ht Hin. apply module_exports_inv in Ht.
  destruct Ht as [_ [_ Hinvoke]]. rewrite Hinvoke in Hin.
  destruct cb as [g completion | v].
  - destruct (constructPath_cases rs (intent op args) (Callable g completion))
      as [E | [path E]]; rewrite E in Hin.
    + rewrite history_call in Hin.
      destruct Hin as [Hin | []]. injection Hin as <- <- <-.
      split; [now exists completion|]. left. now exists "invalid platform".
    + rewrite invocations_history_get_callable in Hin.
      destruct tr as [e | chunks]; [contradiction|].
      destruct (on_end_call_cases (Callable g completion)
                  (List.concat chunks))
        as [E' | [[msg E'] | [r E']]]; rewrite E' in Hin.
      * contradiction.
      * rewrite invocations_call in Hin.
        destruct Hin as [Hin | []]. injection Hin as <- <- <-.
        split; [now exists completion|]. left. now exists msg.
      * rewrite invocations_call in Hin.
        destruct Hin as [Hin | []]. injection Hin as <- <- <-.
        split; [now exists completion|].
        right. split; [reflexivity | now exists r].
  - destruct (constructPath_cases rs (intent op args) (NotInvocable v))
      as [E | [path E]]; rewrite E in Hin; simpl in Hin; contradiction.
Qed.

Lemma invoke_callback_convention_witness :
  match module_exports (VString "contact") with
  | (_, Ok t) =>
      (exists completion, Invocable 5 = Callable 5 completion)
      /\ ((exists msg,
              Some (Error "node-resteemo - invalid json response")
              = Some (Error ("node-resteemo - " ++ msg))
              /\ @None json = None)
          \/ (Some (Error "node-resteemo - invalid json response") = None
              /\ exists r, @None json = Some r))
  | (_, Throw _) => False
  end.
Proof.
  destruct (module_exports (VString "contact")) as [log [t|e]] eqn:Ht.
  - destruct (module_exports_inv _ _ _ Ht) as [_ [-> Hinvoke]].
    apply (invoke_callback_convention (VString "contact") t OpMastery
             [VString "tr"; VString "Faker"] (Invocable 5)
             (Responds [body "<html>"; body "</html>"]) 5
             (Some (Error "node-resteemo - invalid json response")) None Ht).
    rewrite Hinvoke. simpl. left. reflexivity.
  - discriminate.
Defined.



(** ** Numbers as arguments *)

(** Up to [2^53] an integer is its own Number value. *)
Lemma Number_of_integer_exact (n : Z) :
  (Z.abs n <= 2 ^ 53)%Z -> Number_of_integer n = n.
Proof.
  intros Hn. unfold Number_of_integer.
  apply Z.leb_le in Hn. rewrite Hn. destruct n; simpl; lia.
Qed.

(** The string conversion of numbers, at integers where it is not the
    integer's own digits: above [2^53] the nearest double is printed, with
    the fewest digits that read back as it, and from [10^21] on with an
    exponent. *)
Example ToString_numbers :
  ToString (VNumber 9007199254740993) = "9007199254740992"
  /\ ToString (VNumber (2 ^ 63)) = "9223372036854776000"
  /\ ToString (VNumber (2 ^ 64)) = "18446744073709552000"
  /\ ToString (VNumber (- 2 ^ 64)) = "-18446744073709552000"
  /\ ToString (VNumber (10 ^ 20)) = "100000000000000000000"
  /\ ToString (VNumber (10 ^ 21)) = "1e+21"
  /\ ToString (VNumber (10 ^ 23)) = "1e+23"
  /\ ToString (VNumber (2 ^ 70)) = "1.1805916207174113e+21"
  /\ ToString (VNumber (2 ^ 100)) = "1.2676506002282294e+30"
  /\ ToString (VNumber (2 ^ 1024)) = "Infinity".
Proof. vm_compute. repeat split. Qed.

(** Operations called with such numbers. *)
Example number_arguments :
  issued (teemo_team (VString "contact") (VString "euw") (VNumber (10 ^ 21))
            (Invocable 0))
  = [("GET", ENDPOINT ++ "/team/euw/tag/1e+21")]
  /\ issued (teemo_player (VString "contact") (VString "na")
               (VNumber (10 ^ 21)) (Invocable 0))
     = [("GET", ENDPOINT ++ "/player/na/1e+21")]
  /\ issued (teemo_player_rankedStats (VString "contact") (VString "na")
               (VNumber (2 ^ 64)) (VNumber 0) (Invocable 0))
     = [("GET", ENDPOINT
                  ++ "/player/na/18446744073709552000/ranked_stats/season/")]
  /\ issued (teemo_player_rankedStats (VString "contact") (VString "na")
               (VString "Faker") (VNumber (10 ^ 21)) (Invocable 0))
     = [("GET", ENDPOINT ++ "/player/na/Faker/ranked_stats/season/1e+21")].
Proof. vm_compute. repeat split. Qed.
